(** * The crawl engine of [scraper_tool/scraper.py]

    A shallow embedding of the class [Scraper]: URL normalisation, the scope
    filter, the frontier (queue, seen set, visited set), the per-page
    extraction over a BeautifulSoup tree and the crawl loop.  Python [str]
    values are [string]s, Python [set]s of strings are [gset string], the
    queue is a [list string].  The collaborators the code calls but does not
    define (the browser and its page, the HTML parser, [markdownify],
    [urljoin], [urlparse], the console, the progress display and the
    output file) are the fields of a record [World]; each may raise. *)

From Stdlib Require Import Ascii String.
From stdpp Require Import base decidable option list gmap strings pretty.

Open Scope string_scope.
Open Scope list_scope.

#[local] Set Warnings "-clear-no-such-hyp".

(** ** Python string operations used by the code *)

Module PyStr.

Definition hash : ascii := "#"%char.
Definition slash : ascii := "/"%char.
Definition dot : ascii := "."%char.
Definition newline : ascii := "010"%char.

(** [s.split(sep)[0]]: the part of [s] before the first [sep]. *)
Fixpoint split_head (sep : ascii) (s : string) : string :=
  match s with
  | EmptyString => EmptyString
  | String c r => if Ascii.eqb c sep then EmptyString
                  else String c (split_head sep r)
  end.

(** [c in s] for a one-character [c]. *)
Fixpoint contains (c : ascii) (s : string) : bool :=
  match s with
  | EmptyString => false
  | String a r => Ascii.eqb a c || contains c r
  end.

(** [s.split(sep)[-1]]: the part of [s] after the last [sep]. *)
Fixpoint split_last (sep : ascii) (s : string) : string :=
  match s with
  | EmptyString => EmptyString
  | String c r =>
      if Ascii.eqb c sep then split_last sep r
      else if contains sep r then split_last sep r
      else s
  end.

Definition is_empty (s : string) : bool :=
  match s with EmptyString => true | _ => false end.

(** [s.rstrip(c)] for a one-character argument: every trailing [c] goes. *)
Fixpoint rstrip (c : ascii) (s : string) : string :=
  match s with
  | EmptyString => EmptyString
  | String a r =>
      let r' := rstrip c r in
      if Ascii.eqb a c && is_empty r' then EmptyString else String a r'
  end.

(** [s.endswith(c)] for a one-character argument. *)
Fixpoint endswith (c : ascii) (s : string) : bool :=
  match s with
  | EmptyString => false
  | String a EmptyString => Ascii.eqb a c
  | String _ r => endswith c r
  end.

(** [s.startswith(p)]. *)
Definition startswith (p s : string) : bool := String.prefix p s.

(** [n] copies of the character [c]. *)
Fixpoint replicate (n : nat) (c : ascii) : string :=
  match n with
  | O => EmptyString
  | S n' => String c (replicate n' c)
  end.

(** Python's [str.isspace] on one character, for code points below 256. *)
Definition isspace (c : ascii) : bool :=
  let n := nat_of_ascii c in
  (Nat.leb 9 n && Nat.leb n 13) || (Nat.leb 28 n && Nat.leb n 32)
  || Nat.eqb n 133 || Nat.eqb n 160.

(** [s.lstrip()]. *)
Fixpoint lstrip_ws (s : string) : string :=
  match s with
  | EmptyString => EmptyString
  | String a r => if isspace a then lstrip_ws r else s
  end.

(** [s.rstrip()]. *)
Fixpoint rstrip_ws (s : string) : string :=
  match s with
  | EmptyString => EmptyString
  | String a r =>
      let r' := rstrip_ws r in
      if isspace a && is_empty r' then EmptyString else String a r'
  end.

(** [s.strip()]. *)
Definition strip (s : string) : string := rstrip_ws (lstrip_ws s).

(** Every character of [s] is white space. *)
Fixpoint all_space (s : string) : bool :=
  match s with
  | EmptyString => true
  | String a r => isspace a && all_space r
  end.

(** [s] begins, or ends, with a white-space character. *)
Definition starts_space (s : string) : bool :=
  match s with
  | EmptyString => false
  | String a _ => isspace a
  end.

Fixpoint ends_space (s : string) : bool :=
  match s with
  | EmptyString => false
  | String a EmptyString => isspace a
  | String _ r => ends_space r
  end.

(** The text between the end of a line and the start of the next one
    when [k] empty lines lie between them: [k + 1] newlines. *)
Definition blank_lines (k : nat) : string := replicate (S k) newline.

(** How many copies of [c] the string [s] starts with. *)
Fixpoint leading (c : ascii) (s : string) : nat :=
  match s with
  | String a r => if Ascii.eqb a c then S (leading c r) else O
  | EmptyString => O
  end.

(** [s.partition(sep)] for a one-character [sep]: the part before the
    first [sep] and, when there is one, the part after it. *)
Fixpoint partition (sep : ascii) (s : string) : string * option string :=
  match s with
  | EmptyString => (EmptyString, None)
  | String c r =>
      if Ascii.eqb c sep then (EmptyString, Some r)
      else let (h, t) := partition sep r in (String c h, t)
  end.

(** Python's [str.lower] on one character, for code points below 256: the
    letters A to Z and the capital letters from 192 to 222, the sign at
    215 apart, go 32 places up. *)
Definition lower_char (c : ascii) : ascii :=
  let n := nat_of_ascii c in
  if (Nat.leb 65 n && Nat.leb n 90)
     || (Nat.leb 192 n && Nat.leb n 222 && negb (Nat.eqb n 215))
  then ascii_of_nat (n + 32)
  else c.

(** [s.lower()]. *)
Fixpoint lower (s : string) : string :=
  match s with
  | EmptyString => EmptyString
  | String c r => String (lower_char c) (lower r)
  end.

End PyStr.

(** ** [Scraper.normalize_url] *)

(** [return url.split('#')[0].rstrip('/')]; [self] is not used. *)
Definition normalize_url (url : string) : string :=
  PyStr.rstrip PyStr.slash (PyStr.split_head PyStr.hash url).


(** The wording of the specification, kept apart for comparison: the part
    before the first [#], with one trailing [/] removed if there is one. *)
Fixpoint strip_one_trailing (c : ascii) (s : string) : string :=
  match s with
  | EmptyString => EmptyString
  | String a EmptyString => if Ascii.eqb a c then EmptyString else s
  | String a r => String a (strip_one_trailing c r)
  end.

Definition normalize_as_specified (url : string) : string :=
  strip_one_trailing PyStr.slash (PyStr.split_head PyStr.hash url).

(** ** Post-processing of the converted markup *)

(** [re.sub(r'\n{3,}', '\n\n', s)].  The scan goes left to right; a match
    starts at a newline followed by two more and, being greedy, takes every
    newline that follows.  [in_match] says that the scan is inside such a
    match, whose replacement has already been written. *)
Fixpoint re_sub_newlines (in_match : bool) (s : string) : string :=
  match s with
  | EmptyString => EmptyString
  | String c r =>
      if Ascii.eqb c PyStr.newline then
        if in_match then re_sub_newlines true r
        else if Nat.leb 2 (PyStr.leading PyStr.newline r)
             then String PyStr.newline
                    (String PyStr.newline (re_sub_newlines true r))
             else String c (re_sub_newlines false r)
      else String c (re_sub_newlines false r)
  end.

(** [re.sub(r'\n{3,}', '\n\n', markdown).strip()] *)
Definition post_process (markdown : string) : string :=
  PyStr.strip (re_sub_newlines false markdown).

(** ** Exceptions *)

(** A call either returns or raises; an exception is kept as the text that
    [str(e)] gives. *)
Inductive result (A : Type) : Type :=
| Ok (a : A)
| Raise (e : string).
Arguments Ok {A} a.
Arguments Raise {A} e.

Definition bind {A B} (r : result A) (k : A -> result B) : result B :=
  match r with
  | Ok a => k a
  | Raise e => Raise e
  end.

Notation "'call' x := r 'in' k" := (bind r (fun x => k))
  (at level 10, x name, r at level 100, k at level 200).

(** ** The parsed document *)

(** A BeautifulSoup tree: text nodes and tags with their attribute
    dictionary and their children. *)
#[warnings="-register-all"]
Inductive node : Type :=
| NavigableString (text : string)
| Tag (name : string) (attrs : list (string * string)) (contents : list node).

(** A reference to a node inside a tree: the child indexes from the root. *)
Definition path := list nat.

Module Soup.

Definition named (names : list string) (n : node) : bool :=
  match n with
  | NavigableString _ => false
  | Tag nm _ _ => existsb (String.eqb nm) names
  end.

(** [tag.get(key)] *)
Fixpoint get (key : string) (attrs : list (string * string)) : option string :=
  match attrs with
  | [] => None
  | (k, v) :: rest => if String.eqb k key then Some v else get key rest
  end.

(** [tag[key] = v] on a key that is present. *)
Fixpoint set (key v : string) (attrs : list (string * string))
  : list (string * string) :=
  match attrs with
  | [] => [(key, v)]
  | (k, v0) :: rest =>
      if String.eqb k key then (k, v) :: rest else (k, v0) :: set key v rest
  end.

(** [tag.find(name)]: the first descendant, in document order, that is a
    tag of that name, with the place where it sits. *)
Fixpoint find (name : string) (n : node) : option (path * node) :=
  match n with
  | NavigableString _ => None
  | Tag _ _ cs =>
      (fix scan (l : list node) (i : nat) : option (path * node) :=
         match l with
         | [] => None
         | c :: l' =>
             if named [name] c then Some ([i], c)
             else match find name c with
                  | Some (p, m) => Some (i :: p, m)
                  | None => scan l' (S i)
                  end
         end) cs 0
  end.

(** The node a path refers to. *)
Fixpoint lookup (p : path) (n : node) : option node :=
  match p with
  | [] => Some n
  | i :: p' =>
      match n with
      | NavigableString _ => None
      | Tag _ _ cs =>
          match cs !! i with
          | Some c => lookup p' c
          | None => None
          end
      end
  end.

(** Writing [m] at the place [p] of the tree: what a mutation of the node
    referred to by [p] does to every tree that holds it. *)
Fixpoint store (p : path) (m : node) (n : node) : node :=
  match p with
  | [] => m
  | i :: p' =>
      match n with
      | NavigableString _ => n
      | Tag nm at_ cs =>
          Tag nm at_
            (match cs !! i with
             | Some c => <[i := store p' m c]> cs
             | None => cs
             end)
      end
  end.

(** [for tag in region(names): tag.decompose()]: every descendant tag with
    one of the names is taken out of the tree, with all below it. *)
Fixpoint decompose_all (names : list string) (n : node) : node :=
  match n with
  | NavigableString _ => n
  | Tag nm at_ cs =>
      Tag nm at_
        ((fix each (l : list node) : list node :=
            match l with
            | [] => []
            | c :: l' =>
                if named names c then each l'
                else decompose_all names c :: each l'
            end) cs)
  end.

(** The loop over [region.find_all(['a', 'img'])], in document order:
    an [a] with a non-empty [href] and an [img] with a non-empty [src]
    get the joined URL. *)
Definition resolve_tag (join : string -> result string)
    (nm : string) (at_ : list (string * string))
  : result (list (string * string)) :=
  if String.eqb nm "a" then
    match get "href" at_ with
    | Some h => if PyStr.is_empty h then Ok at_
                else (call v := join h in Ok (set "href" v at_))
    | None => Ok at_
    end
  else if String.eqb nm "img" then
    match get "src" at_ with
    | Some h => if PyStr.is_empty h then Ok at_
                else (call v := join h in Ok (set "src" v at_))
    | None => Ok at_
    end
  else Ok at_.

Fixpoint resolve_node (join : string -> result string) (n : node)
  : result node :=
  match n with
  | NavigableString _ => Ok n
  | Tag nm at_ cs =>
      call at' := resolve_tag join nm at_ in
      call cs' := (fix each (l : list node) : result (list node) :=
                match l with
                | [] => Ok []
                | c :: l' =>
                    call c' := resolve_node join c in
                    call l'' := each l' in
                    Ok (c' :: l'')
                end) cs in
      Ok (Tag nm at' cs')
  end.

(** The same over the descendants of the region only: [find_all] does not
    return the tag it is called on. *)
Definition resolve_urls (join : string -> result string) (region : node)
  : result node :=
  match region with
  | NavigableString _ => Ok region
  | Tag nm at_ cs =>
      call cs' := (fix each (l : list node) : result (list node) :=
                match l with
                | [] => Ok []
                | c :: l' =>
                    call c' := resolve_node join c in
                    call l'' := each l' in
                    Ok (c' :: l'')
                end) cs in
      Ok (Tag nm at_ cs')
  end.

(** [[a['href'] for a in n.find_all('a', href=True)]], the root apart. *)
Fixpoint hrefs_from (n : node) : list string :=
  match n with
  | NavigableString _ => []
  | Tag nm at_ cs =>
      (if String.eqb nm "a" then
         match get "href" at_ with Some h => [h] | None => [] end
       else [])
      ++ (fix each (l : list node) : list string :=
            match l with
            | [] => []
            | c :: l' => hrefs_from c ++ each l'
            end) cs
  end.

Definition find_all_a_href (soup : node) : list string :=
  match soup with
  | NavigableString _ => []
  | Tag _ _ cs => concat (map hrefs_from cs)
  end.

(** [tag.string]: the text of a tag with a single child, looked for
    through single-child tags; [None] otherwise. *)
Fixpoint string_of (n : node) : option string :=
  match n with
  | NavigableString s => Some s
  | Tag _ _ [c] => string_of c
  | Tag _ _ _ => None
  end.

End Soup.

(** ** The collaborators *)

(** What [urlparse] returns, as far as the code reads it. *)
Record ParseResult := { netloc : string; path_of : string }.

(** [urlparse(url).hostname], which the library computes from the network
    location [userinfo@host:port] and the code never asks for: of what
    follows the last [@], the part between [[] and []] when there is a
    [[], the part before the first [:] otherwise; in lower case up to a
    [%]; [None] when that part is empty. *)
Definition hostname (pc : ParseResult) : option string :=
  let hostinfo := PyStr.split_last "@"%char (netloc pc) in
  let host :=
    match PyStr.partition "["%char hostinfo with
    | (_, Some bracketed) => (PyStr.partition "]"%char bracketed).1
    | (_, None) => (PyStr.partition ":"%char hostinfo).1
    end in
  if PyStr.is_empty host then None
  else match PyStr.partition "%"%char host with
       | (h, Some zone) => Some (PyStr.lower h +:+ String "%"%char zone)
       | (h, None) => Some (PyStr.lower h)
       end.

(** The functions the code calls and does not define.  Each may raise. *)
Record World := {
  (** [await page.goto(url, wait_until="domcontentloaded")] followed by
      [await page.content()] *)
  page_content : string -> result string;
  (** [BeautifulSoup(content, 'html.parser')] *)
  BeautifulSoup : string -> result node;
  (** [md(str(tag), heading_style="ATX")] *)
  md : node -> result string;
  urljoin : string -> string -> result string;
  urlparse : string -> result ParseResult;
  (** Lines 53 to 59: [async_playwright()] entered, the browser launched,
      the context and the page made, [Progress()] entered, the task
      added *)
  launch : result unit;
  (** [console.print(line)]: the line is read as console markup, and a
      closing tag that closes nothing is an error *)
  console_print : string -> result unit;
  (** leaving [with Progress() as progress], after the descriptions given
      to [progress.update]: the display is drawn a last time *)
  progress_exit : list string -> result unit;
  (** [await browser.close()] *)
  browser_close : result unit;
  (** leaving [async with async_playwright() as p] *)
  playwright_exit : result unit;
  (** [with open(output_file, 'w', encoding='utf-8') as f: f.write(text)] *)
  write_output : string -> string -> result unit;
}.

(** ** The class [Scraper] *)

Record Scraper := {
  start_url : string;
  output_file : string;
  visited : gset string;
  seen_urls : gset string;
  queue : list string;
  base_domain : string;
  base_path : string;
  markdown_content : list string;
}.

Definition set_queue (q : list string) (self : Scraper) : Scraper :=
  {| start_url := start_url self; output_file := output_file self;
     visited := visited self; seen_urls := seen_urls self; queue := q;
     base_domain := base_domain self; base_path := base_path self;
     markdown_content := markdown_content self |}.

(** [self.visited.add(key)] *)
Definition visited_add (key : string) (self : Scraper) : Scraper :=
  {| start_url := start_url self; output_file := output_file self;
     visited := {[ key ]} ∪ visited self; seen_urls := seen_urls self;
     queue := queue self;
     base_domain := base_domain self; base_path := base_path self;
     markdown_content := markdown_content self |}.

(** [self.seen_urls.add(key)] then [self.queue.append(url)] *)
Definition push (key url : string) (self : Scraper) : Scraper :=
  {| start_url := start_url self; output_file := output_file self;
     visited := visited self; seen_urls := {[ key ]} ∪ seen_urls self;
     queue := queue self ++ [url];
     base_domain := base_domain self; base_path := base_path self;
     markdown_content := markdown_content self |}.

(** [self.markdown_content.append(block)] *)
Definition markdown_append (block : string) (self : Scraper) : Scraper :=
  {| start_url := start_url self; output_file := output_file self;
     visited := visited self; seen_urls := seen_urls self;
     queue := queue self;
     base_domain := base_domain self; base_path := base_path self;
     markdown_content := markdown_content self ++ [block] |}.

(** [Scraper.__init__] *)
Definition init (w : World) (start output : string) : result Scraper :=
  call parsed := urlparse w start in
  let bp := path_of parsed in
  let bp :=
    if negb (PyStr.endswith PyStr.slash bp)
       && negb (PyStr.contains PyStr.dot (PyStr.split_last PyStr.slash bp))
    then bp +:+ "/" else bp in
  Ok {| start_url := start; output_file := output;
        visited := ∅; seen_urls := {[ normalize_url start ]};
        queue := [start];
        base_domain := netloc parsed; base_path := bp;
        markdown_content := [] |}.

(** [Scraper.is_valid_url] *)
Definition is_valid_url (w : World) (self : Scraper) (url : string)
  : result bool :=
  call parsed := urlparse w url in
  if negb (String.eqb (netloc parsed) (base_domain self)) then Ok false
  else if negb (PyStr.startswith (start_url self) url)
       then (* pass *) Ok true
       else Ok true.

(** ** One page *)

(** [soup.find('main') or soup.find('article') or soup.find('body')]; a tag
    is always true, so the first one found is taken. *)
Definition select_region (soup : node) : option (path * node) :=
  match Soup.find "main" soup with
  | Some r => Some r
  | None =>
      match Soup.find "article" soup with
      | Some r => Some r
      | None => Soup.find "body" soup
      end
  end.

Definition noise : list string := ["script"; "style"; "nav"; "footer"].

(** [str(x)] inside an f-string, for a value that may be [None]. *)
Definition py_str (x : option string) : string :=
  match x with Some s => s | None => "None" end.

(** [soup.title.string if soup.title else url] *)
Definition page_title (soup : node) (url : string) : option string :=
  match Soup.find "title" soup with
  | Some (_, t) => Soup.string_of t
  | None => Some url
  end.

(** [f"# {title}\n\nURL: {url}\n\n{markdown}\n\n---\n\n"] *)
Definition nl : string := String PyStr.newline EmptyString.

Definition page_block (title : option string) (url markdown : string) : string :=
  "# " +:+ py_str title +:+ nl +:+ nl +:+ "URL: " +:+ url +:+ nl +:+ nl
  +:+ markdown +:+ nl +:+ nl +:+ "---" +:+ nl +:+ nl.

(** Lines 77 to 97.  [main_content] is a reference into [soup]: what the two
    loops do to it, they do to [soup], and the result says what [soup] is
    afterwards, together with the block for [markdown_content] when there
    is a region. *)
Definition extract (w : World) (url : string) (soup : node)
  : result (option string * node) :=
  match select_region soup with
  | None => Ok (None, soup)
  | Some (p, main_content) =>
      let cleaned := Soup.decompose_all noise main_content in
      call resolved := Soup.resolve_urls (urljoin w url) cleaned in
      let soup' := Soup.store p resolved soup in
      let title := page_title soup' url in
      call markdown := md w resolved in
      let markdown := post_process markdown in
      Ok (Some (page_block title url markdown), soup')
  end.

(** Lines 100 to 110: the loop over the anchors found, with the state it
    leaves and the exception that stopped it, if one did. *)
Fixpoint find_links (w : World) (url : string) (hrefs : list string)
    (self : Scraper) : Scraper * result unit :=
  match hrefs with
  | [] => (self, Ok tt)
  | href :: rest =>
      match urljoin w url href with
      | Raise e => (self, Raise e)
      | Ok full_url =>
          let normalized_full := normalize_url full_url in
          match is_valid_url w self full_url with
          | Raise e => (self, Raise e)
          | Ok valid =>
              if valid
                 && bool_decide (normalized_full ∉ visited self)
                 && bool_decide (normalized_full ∉ seen_urls self)
              then find_links w url rest (push normalized_full full_url self)
              else find_links w url rest self
          end
      end
  end.

(** What the page at [url] gives before the link loop: the block to append,
    if any, and the document the links are read from. *)
Definition load (w : World) (url : string) : result (option string * node) :=
  call content := page_content w url in
  call soup := BeautifulSoup w content in
  extract w url soup.

(** The body of the [try], lines 72 to 110. *)
Definition try_body (w : World) (url : string) (self : Scraper)
  : Scraper * result unit :=
  match load w url with
  | Raise e => (self, Raise e)
  | Ok (block, soup) =>
      let self' := match block with
                   | Some b => markdown_append b self
                   | None => self
                   end in
      find_links w url (Soup.find_all_a_href soup) self'
  end.

(** ** The crawl loop *)

(** The scraper together with what the run has shown: the URLs given to
    [progress.update] as "Crawling: {url}", and the lines given to
    [console.print]. *)
Record Crawl := {
  self_of : Scraper;
  described : list string;
  printed : list string;
}.

Definition start (self : Scraper) : Crawl :=
  {| self_of := self; described := []; printed := [] |}.

(** [f"[red]Error scraping {url}: {e}[/red]"] *)
Definition error_line (url e : string) : string :=
  "[red]Error scraping " +:+ url +:+ ": " +:+ e +:+ "[/red]".

(** Where the control is: at the head of the [while], or inside the [try]
    for the URL just taken. *)
Inductive phase :=
| AtLoopHead
| InTry (url : string).

(** Lines 61 to 69: the test of the loop, the pop, the visited check, the
    marking and the progress line.  [None]: the queue is empty and the loop
    is left. *)
Definition take (c : Crawl) : option (phase * Crawl) :=
  match queue (self_of c) with
  | [] => None
  | url :: q =>
      let self1 := set_queue q (self_of c) in
      let normalized_url := normalize_url url in
      if bool_decide (normalized_url ∈ visited self1)
      then Some (AtLoopHead,
                 {| self_of := self1; described := described c;
                    printed := printed c |})
      else Some (InTry url,
                 {| self_of := visited_add normalized_url self1;
                    described := described c ++ [url];
                    printed := printed c |})
  end.

(** Lines 71 to 113: the [try] and its [except].  The handler prints one
    line; when that print raises, its exception leaves the handler, and
    with it the loop.  The result is the state when the control leaves
    these lines, and the exception that leaves them, if one does. *)
Definition try_except (w : World) (url : string) (c : Crawl)
  : Crawl * option string :=
  match try_body w url (self_of c) with
  | (self', Ok _) =>
      ({| self_of := self'; described := described c; printed := printed c |},
       None)
  | (self', Raise e) =>
      match console_print w (error_line url e) with
      | Ok _ =>
          ({| self_of := self'; described := described c;
              printed := printed c ++ [error_line url e] |}, None)
      | Raise e' =>
          ({| self_of := self'; described := described c;
              printed := printed c |}, Some e')
      end
  end.

(** The state after lines 71 to 113. *)
Definition attempt (w : World) (url : string) (c : Crawl) : Crawl :=
  (try_except w url c).1.

(** The exception that leaves lines 71 to 113, if one does. *)
Definition escapes (w : World) (url : string) (c : Crawl) : option string :=
  (try_except w url c).2.

(** One move of the control.  [None]: the control leaves the loop, at its
    head because the queue is empty, or from the handler with an
    exception. *)
Definition step (w : World) (st : phase * Crawl) : option (phase * Crawl) :=
  match st with
  | (AtLoopHead, c) => take c
  | (InTry url, c) =>
      match escapes w url c with
      | None => Some (AtLoopHead, attempt w url c)
      | Some _ => None
      end
  end.

Fixpoint steps (w : World) (n : nat) (st : phase * Crawl) : phase * Crawl :=
  match n with
  | O => st
  | S n' => match step w st with
            | Some st' => steps w n' st'
            | None => st
            end
  end.

(** How a turn of the [while] loop goes: the loop ends because the queue
    is empty, or the turn is done and the loop goes on, or an exception
    leaves the loop. *)
Inductive turn :=
| LoopEnds
| Goes (c : Crawl)
| Escapes (e : string) (c : Crawl).

Definition turn_of (w : World) (c : Crawl) : turn :=
  match take c with
  | None => LoopEnds
  | Some (AtLoopHead, c') => Goes c'
  | Some (InTry url, c') =>
      match escapes w url c' with
      | None => Goes (attempt w url c')
      | Some e => Escapes e (attempt w url c')
      end
  end.

(** One turn of the [while] loop, when it is done and the loop goes on. *)
Definition iteration (w : World) (c : Crawl) : option Crawl :=
  match turn_of w c with
  | Goes c' => Some c'
  | LoopEnds | Escapes _ _ => None
  end.

(** The state after [n] turns that were done, or after as many as were
    done when fewer were: the loop has then ended at its head, or the turn
    that follows is one that an exception leaves. *)
Fixpoint run (w : World) (n : nat) (c : Crawl) : Crawl :=
  match n with
  | O => c
  | S n' => match iteration w c with
            | Some c' => run w n' c'
            | None => c
            end
  end.

(** ["\n".join(lines)] *)
Fixpoint join_lines (lines : list string) : string :=
  match lines with
  | [] => EmptyString
  | [l] => l
  | l :: rest => l +:+ nl +:+ join_lines rest
  end.

(** What [crawl] leaves when it returns: the final state and the text
    written to [output_file]. *)
Record Finished := {
  final : Crawl;
  written : string;
}.

(** How the [while] loop is left. *)
Inductive loop_end :=
| Ended (c : Crawl)
| Escaped (e : string) (c : Crawl).

(** The [while] loop.  It has no bound of its own; [fuel] bounds the number
    of turns, and [None] says that it was not enough. *)
Fixpoint while_loop (w : World) (fuel : nat) (c : Crawl) : option loop_end :=
  match fuel with
  | O => None
  | S fuel' => match turn_of w c with
               | LoopEnds => Some (Ended c)
               | Goes c' => while_loop w fuel' c'
               | Escapes e c' => Some (Escaped e c')
               end
  end.

(** The state in which the loop ends because the queue is empty; [None]
    when the fuel was not enough or an exception left the loop. *)
Definition crawl_loop (w : World) (fuel : nat) (c : Crawl) : option Crawl :=
  match while_loop w fuel c with
  | Some (Ended c') => Some c'
  | Some (Escaped _ _) | None => None
  end.

(** The exception that leaves [crawl] when [e] leaves the loop: the two
    [with] blocks are left on the way, and an exception raised there takes
    the place of the one on its way. *)
Definition unwind (w : World) (e : string) (c : Crawl) : string :=
  let e1 := match progress_exit w (described c) with
            | Raise e' => e'
            | Ok _ => e
            end in
  match playwright_exit w with
  | Raise e' => e'
  | Ok _ => e1
  end.

Definition complete_line (self : Scraper) : string :=
  "[green]Scraping complete! Saved to " +:+ output_file self +:+ "[/green]".

Definition total_line (self : Scraper) : string :=
  "Total pages visited: " +:+ pretty (size (visited self)).

(** Lines 115 to 122, with the two [with] blocks left in between. *)
Definition finish (w : World) (c : Crawl) : result Finished :=
  match progress_exit w (described c) with
  | Raise e =>
      Raise (match playwright_exit w with Raise e' => e' | Ok _ => e end)
  | Ok _ =>
      match browser_close w with
      | Raise e =>
          Raise (match playwright_exit w with Raise e' => e' | Ok _ => e end)
      | Ok _ =>
          call _x := playwright_exit w in
          let text := join_lines (markdown_content (self_of c)) in
          call _x := write_output w (output_file (self_of c)) text in
          call _x := console_print w (complete_line (self_of c)) in
          call _x := console_print w (total_line (self_of c)) in
          Ok {| final :=
                  {| self_of := self_of c; described := described c;
                     printed := printed c
                       ++ [complete_line (self_of c);
                           total_line (self_of c)] |};
                written := text |}
      end
  end.

(** [Scraper.crawl].  [None]: the fuel was not enough for the loop;
    [Some (Raise e)]: [crawl] raises [e]; [Some (Ok f)]: it returns. *)
Definition crawl (w : World) (fuel : nat) (self : Scraper)
  : option (result Finished) :=
  match launch w with
  | Raise e => Some (Raise e)
  | Ok _ =>
      match while_loop w fuel (start self) with
      | None => None
      | Some (Escaped e c) => Some (Raise (unwind w e c))
      | Some (Ended c) => Some (finish w c)
      end
  end.

(** ** Vocabulary of the statements *)

(** What a run of the link loop for the page [url] adds: the entries [new],
    all joined from anchors of the page, in their order, admitted by the
    filter and with keys that were neither seen nor among themselves
    twice. *)
Definition links_added (w : World) (url : string) (hrefs : list string)
    (self self' : Scraper) (new : list string) : Prop :=
  queue self' = queue self ++ new
  /\ seen_urls self' = list_to_set (map normalize_url new) ∪ seen_urls self
  /\ NoDup (map normalize_url new)
  /\ (forall u, u ∈ new ->
        (normalize_url u ∉ seen_urls self)
        /\ (normalize_url u ∉ visited self)
        /\ is_valid_url w self u = Ok true)
  /\ exists picked, sublist picked hrefs
                    /\ Forall2 (fun h u => urljoin w url h = Ok u) picked new.

(** The anchors the link loop of the page [url] goes through: those of the
    document as [extract] leaves it; none when the page fails before. *)
Definition page_hrefs (w : World) (url : string) : list string :=
  match load w url with
  | Ok (_, soup) => Soup.find_all_a_href soup
  | Raise _ => []
  end.

(** The URLs in the order in which the run meets them: those already taken
    for processing, then those waiting. *)
Definition frontier_order (c : Crawl) : list string :=
  described c ++ queue (self_of c).

(** The state of the frontier in a run that began with [Scraper(...)]: no
    key twice among the URLs processed or waiting, all of them seen, and
    nothing visited that was not processed. *)
Definition frontier_ok (c : Crawl) : Prop :=
  NoDup (map normalize_url (frontier_order c))
  /\ (forall u, u ∈ frontier_order c -> normalize_url u ∈ seen_urls (self_of c))
  /\ (forall k, k ∈ visited (self_of c) ->
        k ∈ map normalize_url (described c)).

(** [u] is what an anchor of the page [p] joins to. *)
Definition discovered_from (w : World) (p u : string) : Prop :=
  exists h, h ∈ page_hrefs w p /\ urljoin w p h = Ok u.

(** Every URL met by the run, the seed apart, comes after a processed page
    that links to it. *)
Definition parents_first (w : World) (seed_url : string) (c : Crawl) : Prop :=
  forall j u, frontier_order c !! j = Some u ->
    u = seed_url
    \/ exists i p, i < j /\ described c !! i = Some p /\ discovered_from w p u.

(** A numbering of the URLs met by the run by their depth below the seed:
    the seed has depth 0, every other URL is one deeper than a processed
    page before it that links to it, the depths never decrease along the
    sequence, and nothing waiting is more than one level below the URL that
    is next. *)
Definition level_order (w : World) (c : Crawl) (levels : list nat) : Prop :=
  length levels = length (frontier_order c)
  /\ (forall i j a b, i <= j ->
        levels !! i = Some a -> levels !! j = Some b -> a <= b)
  /\ (forall a, levels !! 0 = Some a -> a = 0)
  /\ (forall j u, 0 < j -> frontier_order c !! j = Some u ->
        exists i p a, i < j /\ described c !! i = Some p
                      /\ discovered_from w p u
                      /\ levels !! i = Some a /\ levels !! j = Some (S a))
  /\ (forall j a b, levels !! length (described c) = Some a ->
        levels !! j = Some b -> b <= S a).

(** The tags and texts below [n], in document order. *)
Fixpoint descendants (n : node) : list node :=
  match n with
  | NavigableString _ => []
  | Tag _ _ cs =>
      (fix each (l : list node) : list node :=
         match l with
         | [] => []
         | c :: l' => c :: descendants c ++ each l'
         end) cs
  end.

(** The first tag of that name below [n], in document order. *)
Definition first_tag (name : string) (n : node) : option node :=
  head (List.filter (Soup.named [name]) (descendants n)).

(** ** A small site, for the examples *)

Module Demo.

(** The part of a URL after the first [//]. *)
Fixpoint after_scheme (s : string) : string :=
  match s with
  | EmptyString => EmptyString
  | String a r =>
      match r with
      | String b r' =>
          if Ascii.eqb a PyStr.slash && Ascii.eqb b PyStr.slash then r'
          else after_scheme r
      | EmptyString => EmptyString
      end
  end.

Definition netloc_of (s : string) : string :=
  PyStr.split_head PyStr.slash (after_scheme s).

(** Scheme and host of an absolute URL. *)
Definition origin (s : string) : string :=
  String.substring 0 (String.length s - String.length (after_scheme s)) s
  +:+ netloc_of s.

(** Joining as the examples need it: an absolute reference stands, a
    reference that starts with [/] is put after the origin of the base. *)
Definition join (base href : string) : result string :=
  match href with
  | String a _ =>
      if Ascii.eqb a PyStr.slash then Ok (origin base +:+ href) else Ok href
  | EmptyString => Ok base
  end.

Definition parse (url : string) : result ParseResult :=
  Ok {| netloc := netloc_of url;
        path_of := String.substring (String.length (netloc_of url))
                     (String.length (after_scheme url)) (after_scheme url) |}.

Definition anchor (href : string) : node :=
  Tag "a" [("href", href)] [NavigableString href].

Definition document (title : list node) (body : list node) : node :=
  Tag "[document]" []
    [Tag "html" []
       [Tag "head" [] [Tag "title" [] title]; Tag "body" [] body]].

(** A site is a table from URL to document.  The browser gives the URL
    itself as content for a page of the site and fails for any other;
    the parser looks the document up; the converter gives the text of
    the first text node of the region. *)
Fixpoint lookup_page (site : list (string * node)) (url : string)
  : option node :=
  match site with
  | [] => None
  | (u, d) :: rest => if String.eqb u url then Some d else lookup_page rest url
  end.

Fixpoint first_text (n : node) : string :=
  match n with
  | NavigableString s => s
  | Tag _ _ cs =>
      (fix each (l : list node) : string :=
         match l with
         | [] => EmptyString
         | c :: l' =>
             match first_text c with
             | EmptyString => each l'
             | s => s
             end
         end) cs
  end.

Definition world (site : list (string * node)) : World :=
  {| page_content := fun url =>
       match lookup_page site url with
       | Some _ => Ok url
       | None => Raise "net::ERR_NAME_NOT_RESOLVED"
       end;
     BeautifulSoup := fun content =>
       match lookup_page site content with
       | Some d => Ok d
       | None => Ok (Tag "[document]" [] [])
       end;
     md := fun region => Ok (first_text region);
     urljoin := join;
     urlparse := parse;
     launch := Ok tt;
     console_print := fun _ => Ok tt;
     progress_exit := fun _ => Ok tt;
     browser_close := Ok tt;
     playwright_exit := Ok tt;
     write_output := fun _ _ => Ok tt |}.

Definition S : string := "https://docs.example.com/intro".
Definition A : string := "https://docs.example.com/a".
Definition B : string := "https://docs.example.com/b".
Definition C : string := "https://docs.example.com/c".

(** The seed links to A and B, A links to C. *)
Definition bfs_site : list (string * node) :=
  [ (S, document [NavigableString "Intro"] [anchor A; anchor B]);
    (A, document [NavigableString "A"] [anchor C]);
    (B, document [NavigableString "B"] []);
    (C, document [NavigableString "C"] []) ].

(** The seed links three times to A, written in three ways, and to a page
    that does not load. *)
Definition dup_site : list (string * node) :=
  [ (S, document [NavigableString "Intro"]
          [anchor A; anchor (A +:+ "/"); anchor (A +:+ "#top");
           anchor "/missing"]);
    (A, document [NavigableString "A"] [anchor (S +:+ "#back")]) ].

(** The links of the page are in a [nav] inside the body, and the page
    has neither [main] nor [article]. *)
Definition nav_page : node :=
  document [NavigableString "Intro"]
    [Tag "nav" [] [anchor "/guide"];
     Tag "p" [] [NavigableString "Welcome"]].

Definition nav_site : list (string * node) := [ (S, nav_page) ].

(** A page whose title element is empty. *)
Definition untitled_page : node := document [] [NavigableString "Text"].

(** A document with none of [main], [article], [body]. *)
Definition bare_page : node :=
  Tag "[document]" [] [anchor A; NavigableString "loose text"].

(** A body that holds an [article] and, after it, a [main]. *)
Definition layered_page : node :=
  document [NavigableString "Layers"]
    [Tag "article" [] [NavigableString "Side"];
     Tag "main" [] [NavigableString "Core"; anchor A]].

(** A [main] between two anchors of the body; in it a [nav], a paragraph
    that holds an anchor and a [footer], and an anchor with an empty
    reference. *)
Definition mixed_page : node :=
  document [NavigableString "Mixed"]
    [anchor "/before";
     Tag "main" []
       [Tag "nav" [] [anchor "/guide"];
        Tag "p" [] [anchor "/kept"; Tag "footer" [] [anchor "/low"]];
        Tag "a" [("href", "")] []];
     anchor "/after"].

Definition mixed_site : list (string * node) := [ (S, mixed_page) ].

Definition scraper (site : list (string * node)) : result Scraper :=
  init (world site) S "docs.md".

(** The scraper that [Scraper(S, "docs.md")] builds. *)
Definition seed : Scraper :=
  {| start_url := S; output_file := "docs.md";
     visited := ∅; seen_urls := {[ normalize_url S ]}; queue := [S];
     base_domain := "docs.example.com"; base_path := "/intro/";
     markdown_content := [] |}.

End Demo.

(** ** Vocabulary of the further statements *)

(** [s] has three newlines in a row somewhere. *)
Fixpoint has_triple_newline (s : string) : bool :=
  match s with
  | EmptyString => false
  | String c r =>
      (Ascii.eqb c PyStr.newline && Nat.leb 2 (PyStr.leading PyStr.newline r))
      || has_triple_newline r
  end.

(** [s] without its newlines. *)
Fixpoint without_newlines (s : string) : string :=
  match s with
  | EmptyString => EmptyString
  | String c r =>
      if Ascii.eqb c PyStr.newline then without_newlines r
      else String c (without_newlines r)
  end.

(** The block that the page [url] adds to [markdown_content], if it adds
    one. *)
Definition block_of (w : World) (url : string) : option string :=
  match load w url with
  | Ok (block, _) => block
  | Raise _ => None
  end.

(** The line that the [except] prints for the page [url], if the [try]
    raises. *)
Definition error_of (w : World) (self : Scraper) (url : string)
  : option string :=
  match (try_body w url self).2 with
  | Ok _ => None
  | Raise e => Some (error_line url e)
  end.

(** Every anchor of the page [p] joins and parses, so that the link loop
    of [p] runs to its end. *)
Definition links_readable (w : World) (self : Scraper) (p : string) : Prop :=
  forall h, h ∈ page_hrefs w p ->
    exists u b, urljoin w p h = Ok u /\ is_valid_url w self u = Ok b.


(** The small site again, with a converter that can fail and a reference
    that does not join. *)
Module Flaky.

Definition world (site : list (string * node)) (bad_href : string)
    (md_fails : bool) : World :=
  {| page_content := page_content (Demo.world site);
     BeautifulSoup := BeautifulSoup (Demo.world site);
     md := fun region =>
       if md_fails then Raise "conversion failed"
       else md (Demo.world site) region;
     urljoin := fun base href =>
       if String.eqb href bad_href then Raise "Invalid IPv6 URL"
       else Demo.join base href;
     urlparse := Demo.parse;
     launch := Ok tt;
     console_print := fun _ => Ok tt;
     progress_exit := fun _ => Ok tt;
     browser_close := Ok tt;
     playwright_exit := Ok tt;
     write_output := fun _ _ => Ok tt |}.

Definition bad : string := "http://[::1".

(** The seed has its text in a [main]; after it come a link to A, a
    reference that does not join, and a link to B. *)
Definition site : list (string * node) :=
  [ (Demo.S, Demo.document [NavigableString "Intro"]
               [Tag "main" [] [NavigableString "Welcome"];
                Demo.anchor Demo.A; Demo.anchor bad; Demo.anchor Demo.B]);
    (Demo.A, Demo.document [NavigableString "A"] []);
    (Demo.B, Demo.document [NavigableString "B"] []) ].

End Flaky.

(** The two loops over the children of a tag, as functions of their own:
    the scan of [find] and the loop of the link rewriting. *)
Definition find_scan (name : string)
  : list node -> nat -> option (path * node) :=
  fix scan (l : list node) (i : nat) : option (path * node) :=
    match l with
    | [] => None
    | c :: l' =>
        if Soup.named [name] c then Some ([i], c)
        else match Soup.find name c with
             | Some (p, m) => Some (i :: p, m)
             | None => scan l' (S i)
             end
    end.

Definition resolve_list (join : string -> result string)
  : list node -> result (list node) :=
  fix each (l : list node) : result (list node) :=
    match l with
    | [] => Ok []
    | c :: l' =>
        call c' := Soup.resolve_node join c in
        call l'' := each l' in
        Ok (c' :: l'')
    end.

(** What the rewriting makes of one reference. *)
Definition rewritten (join : string -> result string) (h h' : string) : Prop :=
  if PyStr.is_empty h then h' = h else join h = Ok h'.

(** Every link of the site that the filter accepts has its key in [K]. *)
Definition site_within (w : World) (self : Scraper) (K : gset string) : Prop :=
  forall p h u,
    h ∈ page_hrefs w p -> urljoin w p h = Ok u ->
    is_valid_url w self u = Ok true -> normalize_url u ∈ K.

(** The frontier of a run of the scraper [self] over a site within [K]. *)
Definition frontier_within (self : Scraper) (K : gset string) (c : Crawl)
  : Prop :=
  frontier_ok c
  /\ base_domain (self_of c) = base_domain self
  /\ start_url (self_of c) = start_url self
  /\ seen_urls (self_of c) ⊆ K.

(** The links of the processed pages whose link loop could run to its end
    are all seen. *)
Definition links_covered (w : World) (self : Scraper) (c : Crawl) : Prop :=
  forall p, p ∈ described c -> links_readable w self p ->
    forall h u, h ∈ page_hrefs w p -> urljoin w p h = Ok u ->
      is_valid_url w self u = Ok true ->
      normalize_url u ∈ seen_urls (self_of c).

(** The reference that a node carries for the link loop: that of a tag
    [a] with an [href], nothing for any other node. *)
Definition own_href (n : node) : list string :=
  match n with
  | Tag nm at_ _ =>
      if String.eqb nm "a"
      then match Soup.get "href" at_ with Some h => [h] | None => [] end
      else []
  | NavigableString _ => []
  end.

(** The tags and texts below [n], in document order, each with the tags
    between [n] and it, the nearest to [n] first. *)
Fixpoint chains (n : node) : list (list node * node) :=
  match n with
  | NavigableString _ => []
  | Tag _ _ cs =>
      (fix each (l : list node) : list (list node * node) :=
         match l with
         | [] => []
         | c :: l' =>
             ([], c) :: map (fun e => (c :: e.1, e.2)) (chains c) ++ each l'
         end) cs
  end.

(** Neither the node nor a tag between [n] and it has one of the
    [names]. *)
Definition clear_of (names : list string) (e : list node * node) : bool :=
  forallb (fun a => negb (Soup.named names a)) (e.2 :: e.1).

(** The references of the anchors below [n] that are not a tag of one of
    the [names] and not inside one, in document order. *)
Definition hrefs_outside (names : list string) (n : node) : list string :=
  concat (map (fun e => own_href e.2)
            (List.filter (clear_of names) (chains n))).

(** The small site with a console that reads markup: a line in which the
    closing tag [[/y]] occurs is refused, as the console refuses a closing
    tag that closes nothing. *)
Module Markup.

(** Where [p] first occurs in [s], from position [i] on. *)
Fixpoint find_from (p s : string) (i : nat) : option nat :=
  if String.prefix p s then Some i
  else match s with
       | EmptyString => None
       | String _ r => find_from p r (S i)
       end.

Definition print (line : string) : result unit :=
  match find_from "[/y]" line 0 with
  | Some i =>
      Raise ("closing tag '[/y]' at position " +:+ pretty i
             +:+ " doesn't match any open tag")
  | None => Ok tt
  end.

Definition world (site : list (string * node)) : World :=
  {| page_content := page_content (Demo.world site);
     BeautifulSoup := BeautifulSoup (Demo.world site);
     md := md (Demo.world site);
     urljoin := Demo.join;
     urlparse := Demo.parse;
     launch := Ok tt;
     console_print := print;
     progress_exit := fun _ => Ok tt;
     browser_close := Ok tt;
     playwright_exit := Ok tt;
     write_output := fun _ _ => Ok tt |}.

(** A page of the same host that does not load, with brackets in its
    path. *)
Definition X : string := "https://docs.example.com/x[/y]".

(** The seed links to X and to A. *)
Definition site : list (string * node) :=
  [ (Demo.S, Demo.document [NavigableString "Intro"]
               [Demo.anchor "/x[/y]"; Demo.anchor Demo.A]);
    (Demo.A, Demo.document [NavigableString "A"] []) ].

End Markup.

(** * Properties *)

(** ** Strings *)

Section PyStrFacts.
Import PyStr.

Lemma append_cons (a : ascii) (s t : string) :
  String a s +:+ t = String a (s +:+ t).
Proof. reflexivity. Qed.

Lemma append_nil_l (t : string) : "" +:+ t = t.
Proof. reflexivity. Qed.

Lemma append_empty_r (s : string) : s +:+ "" = s.
Proof.
  induction s as [|a s IH]; [reflexivity |].
  rewrite append_cons. f_equal. exact IH.
Qed.

Lemma append_assoc (a b c : string) : (a +:+ b) +:+ c = a +:+ (b +:+ c).
Proof.
  induction a as [|x a IH]; [reflexivity |].
  rewrite !append_cons. f_equal. exact IH.
Qed.

Lemma is_empty_true (s : string) : is_empty s = true -> s = "".
Proof. destruct s; simpl; [reflexivity | discriminate]. Qed.

Lemma replicate_snoc (n : nat) (c : ascii) :
  String c (replicate n c) = replicate n c +:+ String c "".
Proof.
  induction n as [|n IH]; simpl; [reflexivity |].
  rewrite append_cons. now rewrite <- IH.
Qed.

Lemma split_head_prefix (c : ascii) (s : string) :
  s = split_head c s \/ exists rest, s = split_head c s +:+ String c rest.
Proof.
  induction s as [|a s IH]; simpl; [now left |].
  destruct (Ascii.eqb_spec a c) as [->|Hne].
  - right. exists s. reflexivity.
  - destruct IH as [IH | [rest IH]].
    + left. now rewrite <- IH.
    + right. exists rest. rewrite append_cons. now rewrite <- IH.
Qed.

Lemma split_head_free (c : ascii) (s : string) :
  contains c (split_head c s) = false.
Proof.
  induction s as [|a s IH]; simpl; [reflexivity |].
  destruct (Ascii.eqb_spec a c) as [->|Hne]; simpl; [reflexivity |].
  rewrite IH. destruct (Ascii.eqb_spec a c); [contradiction | reflexivity].
Qed.

Lemma split_head_id (c : ascii) (s : string) :
  contains c s = false -> split_head c s = s.
Proof.
  induction s as [|a s IH]; simpl; [reflexivity |].
  destruct (Ascii.eqb a c); simpl; [discriminate |].
  intros H. now rewrite IH.
Qed.

Lemma rstrip_free (c d : ascii) (s : string) :
  contains c s = false -> contains c (rstrip d s) = false.
Proof.
  induction s as [|a s IH]; simpl; [reflexivity |].
  intros H. apply orb_false_iff in H as [Ha Hs].
  destruct (Ascii.eqb a d && is_empty (rstrip d s)); simpl; [reflexivity |].
  rewrite Ha. now apply IH.
Qed.

Lemma rstrip_tail (c : ascii) (s : string) :
  exists n, s = rstrip c s +:+ replicate n c.
Proof.
  induction s as [|a s [n IH]]; simpl.
  - exists 0. reflexivity.
  - destruct (Ascii.eqb_spec a c) as [->|Hne]; simpl.
    + destruct (is_empty (rstrip c s)) eqn:He.
      * apply is_empty_true in He. rewrite He in IH.
        rewrite append_nil_l in IH.
        exists (S n). simpl. now rewrite <- IH.
      * exists n. rewrite append_cons. now rewrite <- IH.
    + exists n. rewrite append_cons. now rewrite <- IH.
Qed.

Lemma rstrip_endswith (c : ascii) (s : string) :
  endswith c (rstrip c s) = false.
Proof.
  induction s as [|a s IH]; simpl; [reflexivity |].
  destruct (Ascii.eqb_spec a c) as [->|Hne]; simpl.
  - destruct (rstrip c s) as [|b t] eqn:E; simpl; [reflexivity |].
    exact IH.
  - destruct (rstrip c s) as [|b t] eqn:E; simpl.
    + now apply Ascii.eqb_neq.
    + exact IH.
Qed.

Lemma rstrip_id (c : ascii) (s : string) :
  endswith c s = false -> rstrip c s = s.
Proof.
  induction s as [|a s IH]; simpl; [reflexivity |].
  destruct s as [|b t].
  - intros ->. reflexivity.
  - intros H. rewrite (IH H). simpl. now rewrite andb_false_r.
Qed.

Lemma rstrip_idem (c : ascii) (s : string) :
  rstrip c (rstrip c s) = rstrip c s.
Proof. apply rstrip_id, rstrip_endswith. Qed.

End PyStrFacts.

(** ** [normalize_url] *)

Lemma normalize_url_free (u : string) :
  PyStr.contains PyStr.hash (normalize_url u) = false.
Proof. apply rstrip_free, split_head_free. Qed.

Lemma normalize_url_idem (u : string) :
  normalize_url (normalize_url u) = normalize_url u.
Proof.
  unfold normalize_url at 1.
  rewrite (split_head_id _ _ (normalize_url_free u)).
  apply rstrip_idem.
Qed.

(** C5, as the specification words it, fails: [rstrip('/')] takes every
    trailing slash, not one. *)
Lemma normalize_url_not_one_slash :
  normalize_url "https://a/b//" <> normalize_as_specified "https://a/b//".
Proof. vm_compute. discriminate. Qed.

(** C5 (amended): [normalize_url u] is the part of [u] before the first [#]
    with all its trailing [/] removed: that part is the result followed by
    slashes only, the result ends with no [/], and normalising twice is
    normalising once.  The function is total. *)
Theorem normalize_url_spec (u : string) :
  let head := PyStr.split_head PyStr.hash u in
  (u = head \/ exists rest, u = head +:+ String PyStr.hash rest)
  /\ PyStr.contains PyStr.hash head = false
  /\ (exists n, head = normalize_url u +:+ PyStr.replicate n PyStr.slash)
  /\ PyStr.endswith PyStr.slash (normalize_url u) = false
  /\ normalize_url (normalize_url u) = normalize_url u.
Proof.
  cbv zeta. repeat split.
  - apply split_head_prefix.
  - apply split_head_free.
  - apply rstrip_tail.
  - apply rstrip_endswith.
  - apply normalize_url_idem.
Qed.

(** ** The collapsing of newlines *)

Section Collapse.
Import PyStr.

Lemma leading_replicate (n : nat) (b : string) :
  leading newline b = 0 ->
  leading newline (replicate n newline +:+ b) = n.
Proof.
  intros Hb. induction n as [|n IH]; simpl.
  - exact Hb.
  - now rewrite IH.
Qed.

Lemma leading_append (a t : string) :
  a <> "" -> endswith newline a = false ->
  leading newline (a +:+ t) = leading newline a.
Proof.
  induction a as [|c a IH]; [congruence |].
  intros _ He. rewrite append_cons. simpl.
  destruct (Ascii.eqb c newline) eqn:Ec; [| reflexivity].
  f_equal. destruct a as [|d a'].
  - simpl in He. congruence.
  - apply IH; [discriminate | exact He].
Qed.

Lemma re_sub_leave_match (b : string) :
  leading newline b = 0 ->
  re_sub_newlines true b = re_sub_newlines false b.
Proof.
  destruct b as [|c b]; simpl; [reflexivity |].
  destruct (Ascii.eqb c newline); [discriminate | reflexivity].
Qed.

Lemma re_sub_in_match (n : nat) (b : string) :
  leading newline b = 0 ->
  re_sub_newlines true (replicate n newline +:+ b)
  = re_sub_newlines false b.
Proof.
  intros Hb. induction n as [|n IH]; simpl.
  - now apply re_sub_leave_match.
  - exact IH.
Qed.

Lemma re_sub_newline (flag : bool) (r : string) :
  re_sub_newlines flag (String newline r)
  = if flag then re_sub_newlines true r
    else if Nat.leb 2 (leading newline r)
         then String newline (String newline (re_sub_newlines true r))
         else String newline (re_sub_newlines false r).
Proof. reflexivity. Qed.

Lemma leading_newline (r : string) :
  leading newline (String newline r) = S (leading newline r).
Proof. reflexivity. Qed.

(** A run of [n] newlines before a text that starts with none. *)
Lemma re_sub_run (n : nat) (b : string) :
  leading newline b = 0 ->
  re_sub_newlines false (replicate n newline +:+ b)
  = replicate (Nat.min n 2) newline +:+ re_sub_newlines false b.
Proof.
  intros Hb.
  destruct n as [|[|[|n]]].
  - reflexivity.
  - change (re_sub_newlines false (String newline b)
            = String newline (re_sub_newlines false b)).
    now rewrite re_sub_newline, Hb.
  - change (re_sub_newlines false (String newline (String newline b))
            = String newline (String newline (re_sub_newlines false b))).
    rewrite re_sub_newline, leading_newline, Hb. cbn [Nat.leb].
    now rewrite re_sub_newline, Hb.
  - change (re_sub_newlines false
              (String newline (replicate (S (S n)) newline +:+ b))
            = String newline (String newline (re_sub_newlines false b))).
    rewrite re_sub_newline.
    rewrite (leading_replicate (S (S n)) b Hb). cbn [Nat.leb].
    now rewrite (re_sub_in_match (S (S n)) b Hb).
Qed.

Lemma re_sub_cons (flag : bool) (c : ascii) (r : string) :
  re_sub_newlines flag (String c r)
  = if Ascii.eqb c newline then
      if flag then re_sub_newlines true r
      else if Nat.leb 2 (leading newline r)
           then String newline (String newline (re_sub_newlines true r))
           else String c (re_sub_newlines false r)
    else String c (re_sub_newlines false r).
Proof. reflexivity. Qed.

(** What comes after a text that ends a line does not change what
    happens inside it. *)
Lemma re_sub_append (flag : bool) (a t : string) :
  a <> "" -> endswith newline a = false ->
  re_sub_newlines flag (a +:+ t)
  = re_sub_newlines flag a +:+ re_sub_newlines false t.
Proof.
  revert flag. induction a as [|c a IH]; [congruence |].
  intros flag _ He.
  destruct a as [|d a'].
  - cbn [endswith] in He.
    rewrite append_cons, append_nil_l, !re_sub_cons, He.
    reflexivity.
  - assert (Hne : String d a' <> "") by discriminate.
    assert (He' : endswith newline (String d a') = false) by exact He.
    rewrite append_cons.
    rewrite (re_sub_cons flag c (String d a' +:+ t)).
    rewrite (re_sub_cons flag c (String d a')).
    rewrite (leading_append _ t Hne He').
    destruct (Ascii.eqb c newline).
    + destruct flag.
      * now apply IH.
      * destruct (Nat.leb 2 (leading newline (String d a'))).
        -- rewrite 2!(append_cons newline). do 2 f_equal. now apply IH.
        -- rewrite (append_cons c). f_equal. now apply IH.
    + rewrite (append_cons c). f_equal. now apply IH.
Qed.

Lemma re_sub_between (a b : string) (n : nat) :
  endswith newline a = false -> leading newline b = 0 ->
  re_sub_newlines false (a +:+ replicate n newline +:+ b)
  = re_sub_newlines false a +:+ replicate (Nat.min n 2) newline
    +:+ re_sub_newlines false b.
Proof.
  intros Ha Hb. destruct a as [|c a].
  - rewrite !append_nil_l. now apply re_sub_run.
  - rewrite re_sub_append by (discriminate || exact Ha).
    f_equal. now apply re_sub_run.
Qed.

Lemma all_space_append (l r : string) :
  all_space l = true -> all_space r = true -> all_space (l +:+ r) = true.
Proof.
  induction l as [|a l IH]; [now rewrite append_nil_l |].
  rewrite append_cons. simpl. intros [Ha Hl]%andb_true_iff Hr.
  rewrite Ha. simpl. now apply IH.
Qed.

Lemma lstrip_ws_split (s : string) :
  exists l, all_space l = true /\ s = l +:+ lstrip_ws s
            /\ starts_space (lstrip_ws s) = false.
Proof.
  induction s as [|a s (l & Hl & Hs & Hf)].
  - exists "". repeat split.
  - simpl. destruct (isspace a) eqn:Ea.
    + exists (String a l). simpl. rewrite Ea, Hl, append_cons.
      repeat split; [now f_equal | exact Hf].
    + exists "". simpl. rewrite Ea. repeat split.
Qed.

Lemma rstrip_ws_split (s : string) :
  exists r, all_space r = true /\ s = rstrip_ws s +:+ r
            /\ ends_space (rstrip_ws s) = false.
Proof.
  induction s as [|a s (r & Hr & Hs & Hf)].
  - exists "". repeat split.
  - simpl. destruct (isspace a) eqn:Ea; simpl.
    + destruct (rstrip_ws s) as [|b t] eqn:E; simpl.
      * exists (String a r). simpl. rewrite Ea, Hr, append_nil_l.
        rewrite append_nil_l in Hs.
        repeat split. now f_equal.
      * exists r. rewrite append_cons. repeat split; [exact Hr | now f_equal |].
        exact Hf.
    + exists r. rewrite append_cons. repeat split; [exact Hr | now f_equal |].
      destruct (rstrip_ws s) as [|b t] eqn:E; simpl; [exact Ea | exact Hf].
Qed.

Lemma rstrip_ws_starts (s : string) :
  starts_space s = false -> starts_space (rstrip_ws s) = false.
Proof.
  destruct s as [|a s]; simpl; [reflexivity |].
  intros Ha. rewrite Ha. simpl. exact Ha.
Qed.

Lemma strip_split (s : string) :
  exists l r, all_space l = true /\ all_space r = true
              /\ s = l +:+ strip s +:+ r
              /\ starts_space (strip s) = false
              /\ ends_space (strip s) = false.
Proof.
  destruct (lstrip_ws_split s) as (l & Hl & Hs & Hf).
  destruct (rstrip_ws_split (lstrip_ws s)) as (r & Hr & Hs' & Hf').
  exists l, r. unfold strip. repeat split; try assumption.
  - rewrite <- Hs'. exact Hs.
  - now apply rstrip_ws_starts.
Qed.

End Collapse.

(** C3, as worded, fails: two empty lines between two lines of text are
    three newlines, which the pattern matches, and one is left. *)
Lemma post_process_changes_double_blank :
  post_process ("a" +:+ PyStr.blank_lines 2 +:+ "b")
  <> "a" +:+ PyStr.blank_lines 2 +:+ "b".
Proof. vm_compute. discriminate. Qed.

(** C3 (amended): between a text that does not end with a newline and a
    text that does not start with one, [k] empty lines become one empty
    line when [k] is at least 1 (so four become one, two become one, and a
    single one stays), and no empty line stays none; the two texts are
    treated on their own.  The result of the whole post-processing is that
    of the substitution without the white space at its two ends. *)
Theorem post_process_collapses (a b : string) (k : nat) :
  PyStr.endswith PyStr.newline a = false ->
  PyStr.leading PyStr.newline b = 0 ->
  re_sub_newlines false (a +:+ PyStr.blank_lines k +:+ b)
  = re_sub_newlines false a +:+ PyStr.blank_lines (Nat.min k 1)
    +:+ re_sub_newlines false b
  /\ re_sub_newlines false (a +:+ b)
     = re_sub_newlines false a +:+ re_sub_newlines false b
  /\ exists l r,
       PyStr.all_space l = true /\ PyStr.all_space r = true
       /\ re_sub_newlines false (a +:+ PyStr.blank_lines k +:+ b)
          = l +:+ post_process (a +:+ PyStr.blank_lines k +:+ b) +:+ r
       /\ PyStr.starts_space
            (post_process (a +:+ PyStr.blank_lines k +:+ b)) = false
       /\ PyStr.ends_space
            (post_process (a +:+ PyStr.blank_lines k +:+ b)) = false.
Proof.
  intros Ha Hb. split; [| split].
  - unfold PyStr.blank_lines.
    rewrite (re_sub_between a b (S k) Ha Hb).
    destruct k as [|k]; reflexivity.
  - apply (re_sub_between a b 0 Ha Hb).
  - apply strip_split.
Qed.

Lemma post_process_collapses_witness :
  re_sub_newlines false ("a" +:+ PyStr.blank_lines 4 +:+ "b")
  = re_sub_newlines false "a" +:+ PyStr.blank_lines 1
    +:+ re_sub_newlines false "b".
Proof.
  apply (post_process_collapses "a" "b" 4); reflexivity.
Defined.

(** ** The link loop *)

Section Links.
Context (w : World) (url : string).

Lemma find_links_frame (hrefs : list string) (self : Scraper) :
  let self' := (find_links w url hrefs self).1 in
  visited self' = visited self
  /\ markdown_content self' = markdown_content self
  /\ start_url self' = start_url self
  /\ output_file self' = output_file self
  /\ base_domain self' = base_domain self
  /\ base_path self' = base_path self.
Proof.
  revert self. induction hrefs as [|href rest IH]; intros self; simpl.
  - repeat split.
  - destruct (urljoin w url href) as [full|e]; simpl; [| repeat split].
    destruct (is_valid_url w self full) as [valid|e]; simpl; [| repeat split].
    destruct (valid && _ && _).
    + destruct (IH (push (normalize_url full) full self))
        as (? & ? & ? & ? & ? & ?).
      simpl in *. repeat split; congruence.
    + apply IH.
Qed.

Lemma find_links_added (hrefs : list string) (self : Scraper) :
  exists new,
    links_added w url hrefs self (find_links w url hrefs self).1 new.
Proof.
  revert self. induction hrefs as [|href rest IH]; intros self.
  - exists []. unfold links_added. simpl. rewrite app_nil_r.
    split_and!; [done | set_solver | constructor | set_solver |].
    exists []. split; constructor.
  - assert (Hnone : exists new,
              links_added w url (href :: rest) self self new).
    { exists []. unfold links_added. simpl. rewrite app_nil_r.
      split_and!; [done | set_solver | constructor | set_solver |].
      exists []. split; [apply sublist_nil_l | constructor]. }
    simpl.
    destruct (urljoin w url href) as [full|e] eqn:Ej; simpl; [| done].
    destruct (is_valid_url w self full) as [valid|e] eqn:Ev; simpl;
      [| done].
    destruct (valid && bool_decide (normalize_url full ∉ visited self)
              && bool_decide (normalize_url full ∉ seen_urls self)) eqn:Ec.
    + apply andb_true_iff in Ec as [Ec Hs].
      apply andb_true_iff in Ec as [-> Hv].
      apply bool_decide_eq_true in Hs, Hv.
      destruct (IH (push (normalize_url full) full self))
        as (new & Hq & Hseen & Hnd & Hall & picked & Hsub & Hf2).
      exists (full :: new). unfold links_added.
      simpl in Hq, Hseen. split_and!.
      * rewrite Hq, <- app_assoc. reflexivity.
      * rewrite Hseen. simpl. set_solver.
      * simpl. constructor; [| exact Hnd].
        intros Hin. apply list_elem_of_fmap in Hin as (u & Hu & Hin).
        destruct (Hall u Hin) as (Hns & _). simpl in Hns.
        rewrite <- Hu in Hns. set_solver.
      * intros u [->|Hin]%elem_of_cons; [done |].
        destruct (Hall u Hin) as (Hns & Hnv & Hok). simpl in Hns, Hnv.
        split_and!; [set_solver | done | done].
      * exists (href :: picked). split; [now apply sublist_skip |].
        now constructor.
    + destruct (IH self)
        as (new & Hq & Hseen & Hnd & Hall & picked & Hsub & Hf2).
      exists new. split_and!; try assumption.
      exists picked. split; [now apply sublist_cons | exact Hf2].
Qed.

End Links.

(** ** One page, one turn *)

Section Turn.
Context (w : World).

Lemma try_body_frame (url : string) (self : Scraper) :
  let self' := (try_body w url self).1 in
  visited self' = visited self
  /\ start_url self' = start_url self
  /\ base_domain self' = base_domain self.
Proof.
  unfold try_body.
  destruct (load w url) as [[block soup]|e]; simpl; [| done].
  destruct (find_links_frame w url (Soup.find_all_a_href soup)
              (match block with
               | Some b => markdown_append b self
               | None => self
               end)) as (Hv & _ & Hs & _ & Hb & _).
  rewrite Hv, Hs, Hb. destruct block; done.
Qed.

Lemma try_body_added (url : string) (self : Scraper) :
  exists new,
    links_added w url (page_hrefs w url) self (try_body w url self).1 new.
Proof.
  unfold try_body, page_hrefs.
  destruct (load w url) as [[block soup]|e]; simpl.
  - destruct (find_links_added w url (Soup.find_all_a_href soup)
                (match block with
                 | Some b => markdown_append b self
                 | None => self
                 end)) as (new & H).
    exists new. destruct block; exact H.
  - destruct (find_links_added w url [] self) as (new & H).
    exists new. exact H.
Qed.

Lemma attempt_described (url : string) (c : Crawl) :
  described (attempt w url c) = described c.
Proof.
  unfold attempt, try_except.
  destruct (try_body w url (self_of c)) as [? []]; [done |].
  now destruct (console_print w _).
Qed.

Lemma attempt_self (url : string) (c : Crawl) :
  self_of (attempt w url c) = (try_body w url (self_of c)).1.
Proof.
  unfold attempt, try_except.
  destruct (try_body w url (self_of c)) as [? []]; [done |].
  now destruct (console_print w _).
Qed.

Lemma attempt_visited (url : string) (c : Crawl) :
  visited (self_of (attempt w url c)) = visited (self_of c).
Proof. rewrite attempt_self. apply try_body_frame. Qed.

(** The ways a turn can go: the loop is left, the URL taken is dropped, or
    its attempt is made and the loop goes on. *)
Lemma iteration_cases (c : Crawl) :
  ((queue (self_of c) = []
    \/ exists url q e,
         queue (self_of c) = url :: q
         /\ (normalize_url url ∉ visited (self_of c))
         /\ escapes w url
              {| self_of := visited_add (normalize_url url)
                              (set_queue q (self_of c));
                 described := described c ++ [url];
                 printed := printed c |} = Some e)
   /\ iteration w c = None)
  \/ (exists url q,
        queue (self_of c) = url :: q
        /\ normalize_url url ∈ visited (self_of c)
        /\ iteration w c
           = Some {| self_of := set_queue q (self_of c);
                     described := described c; printed := printed c |})
  \/ (exists url q,
        queue (self_of c) = url :: q
        /\ (normalize_url url ∉ visited (self_of c))
        /\ iteration w c
           = Some (attempt w url
                     {| self_of := visited_add (normalize_url url)
                                     (set_queue q (self_of c));
                        described := described c ++ [url];
                        printed := printed c |})).
Proof.
  unfold iteration, turn_of, take.
  destruct (queue (self_of c)) as [|url q] eqn:Eq; [left; split; [left |]; done |].
  simpl. case_bool_decide as Hv.
  - right. left. exists url, q. done.
  - destruct (escapes w url _) as [e|] eqn:Ee.
    + left. split; [| done]. right. exists url, q, e. done.
    + right. right. exists url, q. done.
Qed.

(** When the attempt of a turn is made and the loop goes on, nothing left
    the handler. *)
Lemma iteration_goes (c c' : Crawl) (url : string) (q : list string) :
  queue (self_of c) = url :: q ->
  normalize_url url ∉ visited (self_of c) ->
  iteration w c = Some c' ->
  escapes w url
    {| self_of := visited_add (normalize_url url) (set_queue q (self_of c));
       described := described c ++ [url];
       printed := printed c |} = None.
Proof.
  intros Hq Hv. unfold iteration, turn_of, take. rewrite Hq. simpl.
  rewrite bool_decide_eq_false_2 by exact Hv.
  now destruct (escapes w url _).
Qed.

(** A turn of the loop is the move from the head of the loop, followed,
    when a URL was taken, by the move through the [try]. *)
Lemma iteration_steps (c : Crawl) :
  iteration w c
  = match step w (AtLoopHead, c) with
    | None => None
    | Some (AtLoopHead, c') => Some c'
    | Some (InTry url, c') => snd <$> step w (InTry url, c')
    end.
Proof.
  unfold iteration, turn_of. simpl.
  destruct (take c) as [[[|url] c']|]; [done | | done].
  now destruct (escapes w url c').
Qed.

Lemma is_valid_url_static (self self' : Scraper) (url : string) :
  base_domain self' = base_domain self -> start_url self' = start_url self ->
  is_valid_url w self' url = is_valid_url w self url.
Proof. intros Hb Hs. unfold is_valid_url. now rewrite Hb, Hs. Qed.

Lemma run_static (n : nat) (c : Crawl) :
  base_domain (self_of (run w n c)) = base_domain (self_of c)
  /\ start_url (self_of (run w n c)) = start_url (self_of c).
Proof.
  revert c. induction n as [|n IH]; intros c; simpl; [done |].
  destruct (iteration_cases c) as [[_ ->] | [(url & q & _ & _ & ->) |
                                            (url & q & _ & _ & ->)]];
    [done | |].
  { apply (IH {| self_of := set_queue q (self_of c);
                 described := described c; printed := printed c |}). }
  destruct (IH (attempt w url
                  {| self_of := visited_add (normalize_url url)
                                  (set_queue q (self_of c));
                     described := described c ++ [url];
                     printed := printed c |})) as (Hb & Hs).
  rewrite Hb, Hs, attempt_self.
  destruct (try_body_frame url
              (visited_add (normalize_url url) (set_queue q (self_of c))))
    as (_ & Hs' & Hb').
  simpl in *. now rewrite Hs', Hb'.
Qed.

(** What a run adds to the URLs taken for processing: no key twice, and
    no key that was visited before. *)
Lemma run_described (n : nat) (c : Crawl) :
  exists later,
    described (run w n c) = described c ++ later
    /\ NoDup (map normalize_url later)
    /\ (forall u, u ∈ later -> normalize_url u ∉ visited (self_of c))
    /\ visited (self_of (run w n c))
       = list_to_set (map normalize_url later) ∪ visited (self_of c).
Proof.
  revert c. induction n as [|n IH]; intros c; simpl.
  - exists []. rewrite app_nil_r. split_and!; [done | constructor | | ].
    + intros u Hu. inversion Hu.
    + set_solver.
  - destruct (iteration_cases c) as [[_ ->] | [(url & q & _ & _ & ->) |
                                            (url & q & _ & Hv & ->)]].
    + exists []. rewrite app_nil_r. split_and!; [done | constructor | | ].
      * intros u Hu. inversion Hu.
      * set_solver.
    + destruct (IH {| self_of := set_queue q (self_of c);
                      described := described c; printed := printed c |})
        as (later & Hd & Hnd & Hnv & Hvis).
      exists later. done.
    + set (c1 := attempt w url _).
      destruct (IH c1) as (later & Hd & Hnd & Hnv & Hvis).
      assert (Hv1 : visited (self_of c1)
                    = {[ normalize_url url ]} ∪ visited (self_of c)).
      { unfold c1. rewrite attempt_visited. done. }
      assert (Hd1 : described c1 = described c ++ [url]).
      { unfold c1. rewrite attempt_described. done. }
      exists (url :: later). rewrite Hd, Hd1, <- app_assoc.
      split_and!; [done | | | ].
      * simpl. constructor; [| done].
        intros (u & Hu & Hin)%list_elem_of_fmap.
        apply (Hnv u Hin). rewrite Hv1, <- Hu. set_solver.
      * intros u [->|Hin]%elem_of_cons; [done |].
        specialize (Hnv u Hin). rewrite Hv1 in Hnv. set_solver.
      * rewrite Hvis, Hv1. simpl. set_solver.
Qed.

End Turn.

(** ** Keys that differ by a fragment or a trailing slash *)

Lemma split_head_append (c : ascii) (u rest : string) :
  PyStr.contains c u = false ->
  PyStr.split_head c (u +:+ String c rest) = u.
Proof.
  induction u as [|a u IH]; intros H.
  - rewrite append_nil_l. simpl. now rewrite Ascii.eqb_refl.
  - rewrite append_cons. simpl in *.
    apply orb_false_iff in H as [Ha Hu]. rewrite Ha. f_equal. now apply IH.
Qed.

Lemma contains_append (c : ascii) (u v : string) :
  PyStr.contains c (u +:+ v) = PyStr.contains c u || PyStr.contains c v.
Proof.
  induction u as [|a u IH]; [reflexivity |].
  rewrite append_cons. simpl. rewrite IH. now rewrite orb_assoc.
Qed.

Lemma rstrip_append_one (c : ascii) (u : string) :
  PyStr.rstrip c (u +:+ String c "") = PyStr.rstrip c u.
Proof.
  induction u as [|a u IH].
  - rewrite append_nil_l. simpl. now rewrite Ascii.eqb_refl.
  - rewrite append_cons. simpl. now rewrite IH.
Qed.

Lemma normalize_url_fragment (u frag : string) :
  PyStr.contains PyStr.hash u = false ->
  normalize_url (u +:+ String PyStr.hash frag) = normalize_url u.
Proof.
  intros H. unfold normalize_url.
  now rewrite split_head_append, split_head_id.
Qed.

Lemma normalize_url_trailing_slash (u : string) :
  PyStr.contains PyStr.hash u = false ->
  normalize_url (u +:+ "/") = normalize_url u.
Proof.
  intros H. unfold normalize_url.
  rewrite !split_head_id; [apply rstrip_append_one | done |].
  rewrite contains_append, H. reflexivity.
Qed.

(** ** The frontier never gives a key twice *)

(** C1: whatever the scraper holds when the loop starts (any queue, with
    repeated keys or not), the URLs that get past the visited check in a
    run have pairwise different keys.  A link whose key is already in
    [seen_urls] leaves the scraper as it was, a popped URL whose key is in
    [visited] is dropped with nothing else changed, and two URLs that
    differ by a fragment or by a trailing slash have the same key. *)
Theorem never_processed_twice (w : World) (self : Scraper) (n : nat) :
  NoDup (map normalize_url (described (run w n (start self))))
  /\ (forall url href full (s : Scraper),
        urljoin w url href = Ok full ->
        normalize_url full ∈ seen_urls s ->
        (find_links w url [href] s).1 = s)
  /\ (forall (c : Crawl) url q,
        queue (self_of c) = url :: q ->
        normalize_url url ∈ visited (self_of c) ->
        iteration w c
        = Some {| self_of := set_queue q (self_of c);
                  described := described c; printed := printed c |})
  /\ (forall u frag,
        PyStr.contains PyStr.hash u = false ->
        normalize_url (u +:+ String PyStr.hash frag) = normalize_url u
        /\ normalize_url (u +:+ "/") = normalize_url u).
Proof.
  split_and!.
  - destruct (run_described w n (start self)) as (later & Hd & Hnd & _).
    rewrite Hd. exact Hnd.
  - intros url href full s Hj Hs. simpl. rewrite Hj.
    destruct (is_valid_url w s full) as [valid|e]; [| done].
    rewrite (bool_decide_eq_false_2 (normalize_url full ∉ seen_urls s))
      by (intros Hn; exact (Hn Hs)).
    now rewrite andb_false_r.
  - intros c url q Hq Hv. unfold iteration, turn_of, take. rewrite Hq. simpl.
    now rewrite bool_decide_eq_true_2.
  - intros u frag H. split.
    + now apply normalize_url_fragment.
    + now apply normalize_url_trailing_slash.
Qed.

Lemma never_processed_twice_witness :
  let w := Demo.world Demo.dup_site in
  NoDup (map normalize_url (described (run w 10 (start Demo.seed))))
  /\ (find_links w Demo.S [Demo.A +:+ "/"]
        (push (normalize_url Demo.A) Demo.A Demo.seed)).1
     = push (normalize_url Demo.A) Demo.A Demo.seed
  /\ iteration w (start (visited_add (normalize_url Demo.S) Demo.seed))
     = Some (start (set_queue []
                      (visited_add (normalize_url Demo.S) Demo.seed)))
  /\ normalize_url (Demo.A +:+ "#top") = normalize_url Demo.A
  /\ normalize_url (Demo.A +:+ "/") = normalize_url Demo.A.
Proof.
  intros w.
  destruct (never_processed_twice w Demo.seed 10) as (H1 & H2 & H3 & H4).
  split; [exact H1 |].
  split.
  { apply (H2 Demo.S (Demo.A +:+ "/") (Demo.A +:+ "/") _ eq_refl).
    apply (bool_decide_unpack _). vm_compute. exact I. }
  split.
  { apply (H3 (start (visited_add (normalize_url Demo.S) Demo.seed))
              Demo.S [] eq_refl).
    apply (bool_decide_unpack _). vm_compute. exact I. }
  exact (H4 Demo.A "top" eq_refl).
Defined.

(** ** When a key enters [visited] *)

Section Marking.
Context (w : World).

(** [take] is the only place where [visited] grows, by the key of the URL
    it hands to the [try], which was not there. *)
Lemma take_marks (c c' : Crawl) (url : string) :
  take c = Some (InTry url, c') ->
  (normalize_url url ∉ visited (self_of c))
  /\ visited (self_of c') = {[ normalize_url url ]} ∪ visited (self_of c)
  /\ described c' = described c ++ [url]
  /\ markdown_content (self_of c') = markdown_content (self_of c)
  /\ printed c' = printed c.
Proof.
  unfold take. destruct (queue (self_of c)) as [|u q]; [done |].
  simpl. case_bool_decide as Hv; [done |].
  intros [= <- <-]. done.
Qed.

Lemma take_discards (c c' : Crawl) :
  take c = Some (AtLoopHead, c') ->
  visited (self_of c') = visited (self_of c)
  /\ described c' = described c.
Proof.
  unfold take. destruct (queue (self_of c)) as [|u q]; [done |].
  simpl. case_bool_decide as Hv; [| done].
  intros [= <-]. done.
Qed.

Lemma steps_described (n : nat) (st : phase * Crawl) :
  (forall url, st.1 = InTry url ->
               normalize_url url ∈ visited (self_of st.2)) ->
  exists later,
    described (steps w n st).2 = described st.2 ++ later
    /\ NoDup (map normalize_url later)
    /\ (forall u, u ∈ later -> normalize_url u ∉ visited (self_of st.2))
    /\ visited (self_of (steps w n st).2)
       = list_to_set (map normalize_url later) ∪ visited (self_of st.2)
    /\ (forall url, (steps w n st).1 = InTry url ->
          normalize_url url ∈ visited (self_of (steps w n st).2)).
Proof.
  revert st. induction n as [|n IH]; intros [ph c] Hph.
  - exists []. simpl. rewrite app_nil_r.
    split_and!; [done | constructor | | | done].
    + intros u Hu. inversion Hu.
    + set_solver.
  - cbn [steps]. destruct ph as [|url0].
    + cbn [step]. destruct (take c) as [[[|url] c']|] eqn:Et.
      * destruct (take_discards _ _ Et) as (Hv & Hd).
        destruct (IH (AtLoopHead, c')) as (later & H); [done |].
        exists later. simpl in *. rewrite <- Hv, <- Hd. exact H.
      * destruct (take_marks _ _ _ Et) as (Hnv & Hv & Hd & _).
        destruct (IH (InTry url, c'))
          as (later & Hl & Hnd & Hnin & Hvis & Hph').
        { simpl. intros ? [= <-]. rewrite Hv. set_solver. }
        exists (url :: later). simpl in *.
        rewrite Hl, Hd, <- app_assoc. split_and!; [done | | | | done].
        -- constructor; [| done].
           intros (u & Hu & Hin)%list_elem_of_fmap.
           apply (Hnin u Hin). rewrite Hv, <- Hu. set_solver.
        -- intros u [->|Hin]%elem_of_cons; [done |].
           specialize (Hnin u Hin). rewrite Hv in Hnin. set_solver.
        -- rewrite Hvis, Hv. set_solver.
      * exists []. simpl. rewrite app_nil_r.
        split_and!; [done | constructor | | | done].
        -- intros u Hu. inversion Hu.
        -- set_solver.
    + cbn [step]. destruct (escapes w url0 c).
      * exists []. simpl. rewrite app_nil_r.
        split_and!; [done | constructor | | | exact Hph].
        -- intros u Hu. inversion Hu.
        -- set_solver.
      * destruct (IH (AtLoopHead, attempt w url0 c)) as (later & H);
          [done |].
        exists later. simpl in *.
        rewrite attempt_described, attempt_visited in H. exact H.
Qed.

End Marking.

(** C4, as worded, fails: the key is put in [visited] before the [try] is
    entered, so before the page is even asked for.  After the first move of
    the control the seed is marked and its attempt has not begun. *)
Lemma visited_before_attempt :
  let st := steps (Demo.world Demo.bfs_site) 1
              (AtLoopHead, start Demo.seed) in
  st.1 = InTry Demo.S
  /\ normalize_url Demo.S ∈ visited (self_of st.2)
  /\ markdown_content (self_of st.2) = []
  /\ printed st.2 = [].
Proof.
  cbv zeta. split_and!; reflexivity.
Qed.

(** C4 (amended): in a run from the head of the loop, the keys put in
    [visited] are those of the URLs taken for processing, each put there
    once; a key is put there when its URL is taken, before the attempt
    begins, it was not there before, and the attempt, whether it succeeds
    or fails, leaves [visited] as it is. *)
Theorem visited_marked_once (w : World) (self : Scraper) (n : nat) :
  let st := steps w n (AtLoopHead, start self) in
  NoDup (map normalize_url (described st.2))
  /\ visited (self_of st.2)
     = list_to_set (map normalize_url (described st.2)) ∪ visited self
  /\ (forall u, u ∈ described st.2 -> normalize_url u ∉ visited self)
  /\ (forall url, st.1 = InTry url ->
        normalize_url url ∈ visited (self_of st.2)
        /\ visited (self_of (attempt w url st.2)) = visited (self_of st.2))
  /\ (forall c c' url, take c = Some (InTry url, c') ->
        (normalize_url url ∉ visited (self_of c))
        /\ visited (self_of c')
           = {[ normalize_url url ]} ∪ visited (self_of c)).
Proof.
  cbv zeta.
  destruct (steps_described w n (AtLoopHead, start self))
    as (later & Hd & Hnd & Hnin & Hvis & Hph); [done |].
  simpl in Hd, Hnin, Hvis. rewrite Hd.
  split_and!; try done.
  - intros url Hurl. split; [now apply Hph | apply attempt_visited].
  - intros c c' url Ht. destruct (take_marks _ _ _ Ht) as (? & ? & _). done.
Qed.

Lemma visited_marked_once_witness :
  let w := Demo.world Demo.bfs_site in
  let st := steps w 1 (AtLoopHead, start Demo.seed) in
  (normalize_url Demo.S ∈ visited (self_of st.2)
   /\ visited (self_of (attempt w Demo.S st.2)) = visited (self_of st.2))
  /\ ((normalize_url Demo.S ∉ visited Demo.seed)
      /\ visited (self_of st.2)
         = {[ normalize_url Demo.S ]} ∪ visited Demo.seed).
Proof.
  intros w st.
  destruct (visited_marked_once w Demo.seed 1) as (_ & _ & _ & H4 & H5).
  split.
  - exact (H4 Demo.S eq_refl).
  - exact (H5 (start Demo.seed) st.2 Demo.S eq_refl).
Defined.

(** ** A page that does not render *)

(** C8 does not hold of the code.  The seed links to X, a page of the same
    host that does not load and has [[/y]] in its path, and to A.  The
    attempt of X raises in the browser; the handler builds its line from
    the URL and gives it to a console that reads markup, the print raises,
    and the exception leaves the loop: no report is printed, A is never
    taken from the queue, and [crawl] raises without writing anything. *)
Theorem render_failure_can_abort :
  let w := Markup.world Markup.site in
  let c1 := run w 1 (start Demo.seed) in
  queue (self_of c1) = [Markup.X; Demo.A]
  /\ page_content w Markup.X = Raise "net::ERR_NAME_NOT_RESOLVED"
  /\ console_print w (error_line Markup.X "net::ERR_NAME_NOT_RESOLVED")
     = Raise "closing tag '[/y]' at position 46 doesn't match any open tag"
  /\ (exists c2,
        turn_of w c1
        = Escapes "closing tag '[/y]' at position 46 doesn't match any open tag"
            c2
        /\ queue (self_of c2) = [Demo.A]
        /\ printed c2 = []
        /\ normalize_url Markup.X ∈ visited (self_of c2))
  /\ iteration w c1 = None
  /\ described (run w 10 (start Demo.seed)) = [Demo.S]
  /\ crawl w 10 Demo.seed
     = Some (Raise
               "closing tag '[/y]' at position 46 doesn't match any open tag").
Proof.
  cbv zeta. split_and!; try (vm_compute; reflexivity).
  eexists. split_and!; vm_compute; reflexivity.
Qed.

(** ** The scope filter *)

(** C6 as it is stated does not hold.  The filter compares network
    locations, not hosts: a candidate whose host is the host of the seed is
    refused when its network location is written with a port, with a user
    name, or in capital letters. *)
Lemma scope_filter_not_by_host :
  let w := Demo.world Demo.bfs_site in
  let with_port := "https://docs.example.com:443/x" in
  let with_user := "https://user@docs.example.com/x" in
  let in_capitals := "https://DOCS.example.com/x" in
  init w Demo.S "docs.md" = Ok Demo.seed
  /\ exists ps pc1 pc2 pc3,
       urlparse w Demo.S = Ok ps
       /\ urlparse w with_port = Ok pc1
       /\ urlparse w with_user = Ok pc2
       /\ urlparse w in_capitals = Ok pc3
       /\ hostname ps = Some "docs.example.com"
       /\ hostname pc1 = hostname ps
       /\ hostname pc2 = hostname ps
       /\ hostname pc3 = hostname ps
       /\ is_valid_url w Demo.seed with_port = Ok false
       /\ is_valid_url w Demo.seed with_user = Ok false
       /\ is_valid_url w Demo.seed in_capitals = Ok false
       /\ ~ (is_valid_url w Demo.seed with_port = Ok true
             <-> hostname pc1 = hostname ps).
Proof.
  cbv zeta. split; [reflexivity |].
  eexists _, _, _, _.
  do 4 (split; [reflexivity |]).
  do 7 (split; [vm_compute; reflexivity |]).
  intros [_ H]. assert (Hf : is_valid_url (Demo.world Demo.bfs_site) Demo.seed
                               "https://docs.example.com:443/x" = Ok true).
  { apply H. vm_compute. reflexivity. }
  vm_compute in Hf. discriminate Hf.
Qed.

(** C6, amended: for the scraper built from a seed, at any point of its
    run, a candidate is accepted exactly when it parses and its network
    location, as written, is that of the seed; the verdict depends on
    nothing else, the path least of all.  An accepted candidate has the
    host of the seed. *)
Theorem scope_filter_same_host (w : World) (seed_url out cand : string)
    (self : Scraper) (ps : ParseResult) (n : nat) :
  init w seed_url out = Ok self ->
  urlparse w seed_url = Ok ps ->
  let self_n := self_of (run w n (start self)) in
  base_domain self_n = netloc ps
  /\ (is_valid_url w self_n cand = Ok true
      <-> exists pc, urlparse w cand = Ok pc /\ netloc pc = netloc ps)
  /\ (forall pc, urlparse w cand = Ok pc ->
        is_valid_url w self_n cand = Ok (bool_decide (netloc pc = netloc ps)))
  /\ (forall pc, urlparse w cand = Ok pc ->
        is_valid_url w self_n cand = Ok true -> hostname pc = hostname ps).
Proof.
  intros Hi Hp self_n.
  assert (Hb0 : base_domain self = netloc ps).
  { unfold init in Hi. rewrite Hp in Hi. simpl in Hi.
    injection Hi as <-. reflexivity. }
  destruct (run_static w n (start self)) as (Hb & Hs). simpl in Hb, Hs.
  fold self_n in Hb, Hs.
  assert (Hv : forall pc, urlparse w cand = Ok pc ->
            is_valid_url w self_n cand
            = Ok (bool_decide (netloc pc = netloc ps))).
  { intros pc Hc. unfold is_valid_url. rewrite Hc. simpl.
    rewrite Hb, Hb0.
    destruct (String.eqb_spec (netloc pc) (netloc ps)) as [Heq|Hne]; simpl.
    - rewrite bool_decide_eq_true_2 by done.
      now destruct (negb (PyStr.startswith (start_url self_n) cand)).
    - now rewrite bool_decide_eq_false_2. }
  split_and!; [congruence | | exact Hv |].
  - split.
    + intros H. destruct (urlparse w cand) as [pc|e] eqn:Ec.
      * exists pc. split; [done |].
        rewrite (Hv pc eq_refl) in H. injection H as H.
        now apply bool_decide_eq_true in H.
      * unfold is_valid_url in H. rewrite Ec in H. discriminate.
    + intros (pc & Hc & Heq). rewrite (Hv pc Hc).
      now rewrite bool_decide_eq_true_2.
  - intros pc Hc H. rewrite (Hv pc Hc) in H. injection H as H.
    apply bool_decide_eq_true in H. unfold hostname. now rewrite H.
Qed.

Lemma scope_filter_same_host_witness :
  let w := Demo.world Demo.bfs_site in
  is_valid_url w (self_of (run w 2 (start Demo.seed)))
    "https://docs.example.com/elsewhere/deep.html" = Ok true
  /\ is_valid_url w (self_of (run w 2 (start Demo.seed)))
       "https://other.example.com/intro" = Ok false.
Proof.
  intros w. split.
  - apply (scope_filter_same_host w Demo.S "docs.md"
             "https://docs.example.com/elsewhere/deep.html" Demo.seed
             {| netloc := "docs.example.com"; path_of := "/intro" |} 2
             eq_refl eq_refl).
    eexists. split; reflexivity.
  - destruct (scope_filter_same_host w Demo.S "docs.md"
                "https://other.example.com/intro" Demo.seed
                {| netloc := "docs.example.com"; path_of := "/intro" |} 2
                eq_refl eq_refl) as (_ & _ & H & _).
    exact (H {| netloc := "other.example.com"; path_of := "/intro" |}
             eq_refl).
Defined.

(** ** The document tree *)

(** Induction on a tree, with the property known for every child. *)
Lemma node_ind_children (P : node -> Prop) :
  (forall s, P (NavigableString s)) ->
  (forall nm at_ cs, Forall P cs -> P (Tag nm at_ cs)) ->
  forall n, P n.
Proof.
  intros Htext Htag. fix IH 1. intros [s | nm at_ cs].
  - apply Htext.
  - apply Htag. induction cs as [|c cs IHcs]; constructor.
    + apply IH.
    + exact IHcs.
Qed.

(** What [find] returns is a tag of the name asked for, and the path given
    with it leads to it. *)
Lemma find_sound (name : string) (n : node) (p : path) (m : node) :
  Soup.find name n = Some (p, m) ->
  Soup.named [name] m = true /\ Soup.lookup p n = Some m.
Proof.
  revert p m. induction n as [s | nm at_ cs IHcs] using node_ind_children;
    intros p m; [discriminate |].
  cbn [Soup.find].
  enough (Hscan : forall i,
    (fix scan (l : list node) (i : nat) : option (path * node) :=
       match l with
       | [] => None
       | c :: l' =>
           if Soup.named [name] c then Some ([i], c)
           else match Soup.find name c with
                | Some (p, m) => Some (i :: p, m)
                | None => scan l' (S i)
                end
       end) cs i = Some (p, m) ->
    Soup.named [name] m = true
    /\ exists j p', p = (i + j) :: p'
                    /\ (cs !! j ≫= Soup.lookup p') = Some m).
  { intros H. destruct (Hscan 0 H) as (Hn & j & p' & -> & Hl).
    split; [exact Hn |]. simpl. destruct (cs !! j); exact Hl. }
  induction IHcs as [|c cs Hc _ IH]; intros i; [discriminate |].
  destruct (Soup.named [name] c) eqn:En.
  - intros [= <- <-]. split; [exact En |].
    exists 0, []. rewrite Nat.add_0_r. done.
  - destruct (Soup.find name c) as [[pc mc]|] eqn:Ef.
    + intros [= <- <-]. destruct (Hc pc mc eq_refl) as (Hn & Hl).
      split; [exact Hn |]. exists 0, pc. rewrite Nat.add_0_r. done.
    + intros H. destruct (IH (S i) H) as (Hn & j & p' & -> & Hl).
      split; [exact Hn |]. exists (S j), p'.
      split; [f_equal; lia | exact Hl].
Qed.

Lemma named_weaken (name : string) (names : list string) (m : node) :
  name ∈ names -> Soup.named [name] m = true -> Soup.named names m = true.
Proof.
  destruct m as [s | nm at_ cs]; simpl; [done |].
  intros Hin. rewrite orb_false_r. intros ->%String.eqb_eq.
  apply existsb_exists. exists name. split; [| apply String.eqb_refl].
  now apply list_elem_of_In.
Qed.

(** ** The content region *)

Lemma find_tag (name nm : string) (at_ : list (string * string))
    (cs : list node) :
  Soup.find name (Tag nm at_ cs) = find_scan name cs 0.
Proof. reflexivity. Qed.

Lemma find_scan_cons (name : string) (c : node) (l : list node) (i : nat) :
  find_scan name (c :: l) i
  = if Soup.named [name] c then Some ([i], c)
    else match Soup.find name c with
         | Some (p, m) => Some (i :: p, m)
         | None => find_scan name l (S i)
         end.
Proof. reflexivity. Qed.

Lemma descendants_tag (nm : string) (at_ : list (string * string))
    (cs : list node) :
  descendants (Tag nm at_ cs)
  = concat (map (fun c => c :: descendants c) cs).
Proof.
  cbn [descendants].
  induction cs as [|c cs IH]; [reflexivity |].
  cbn [map concat]. rewrite <- IH. reflexivity.
Qed.

(** [find] gives the first tag of the name in document order, and nothing
    only when there is none. *)
Lemma find_first (name : string) (n : node) :
  snd <$> Soup.find name n = first_tag name n.
Proof.
  unfold first_tag.
  induction n as [s | nm at_ cs IHcs] using node_ind_children;
    [reflexivity |].
  rewrite find_tag, descendants_tag. generalize 0.
  induction IHcs as [|c cs Hc _ IH]; intros i; [reflexivity |].
  rewrite find_scan_cons. cbn [map concat].
  change ((c :: descendants c) ++ concat (map (fun c0 => c0 :: descendants c0) cs))
    with (c :: (descendants c
                ++ concat (map (fun c0 => c0 :: descendants c0) cs))).
  cbn [List.filter]. destruct (Soup.named [name] c); [reflexivity |].
  rewrite List.filter_app.
  destruct (Soup.find name c) as [[p m]|]; cbn [fmap option_fmap option_map snd] in *.
  - destruct (List.filter (Soup.named [name]) (descendants c)) as [|x l];
      [discriminate |].
    simpl in Hc. injection Hc as <-. reflexivity.
  - destruct (List.filter (Soup.named [name]) (descendants c)) as [|x l];
      [| discriminate].
    simpl. apply IH.
Qed.

(** C9: the region is the first [main] of the document if the document
    has a [main] anywhere, else its first [article] if it has one, else
    its first [body], and there is none only when the document has none of
    the three.  The region selected is one tag of the document, and it is
    the one used: when its references resolve and its markup converts, the
    block of the page is made from the conversion of that region, cleaned
    and resolved.  When the document has none of the three, [extract]
    returns without an exception, with no block and the document as it
    was; the page then adds nothing to [markdown_content], its anchors go
    through the link loop as for any other page, and unless that loop
    raises nothing is printed and nothing leaves the handler. *)
Theorem region_by_priority (w : World) (url : string) (soup : node) :
  snd <$> select_region soup
  = match first_tag "main" soup with
    | Some r => Some r
    | None => match first_tag "article" soup with
              | Some r => Some r
              | None => first_tag "body" soup
              end
    end
  /\ (forall p region, select_region soup = Some (p, region) ->
        Soup.lookup p soup = Some region
        /\ Soup.named ["main"; "article"; "body"] region = true
        /\ forall resolved markdown,
             Soup.resolve_urls (urljoin w url)
               (Soup.decompose_all noise region) = Ok resolved ->
             md w resolved = Ok markdown ->
             extract w url soup
             = Ok (Some (page_block
                           (page_title (Soup.store p resolved soup) url)
                           url (post_process markdown)),
                   Soup.store p resolved soup))
  /\ (first_tag "main" soup = None ->
      first_tag "article" soup = None ->
      first_tag "body" soup = None ->
      select_region soup = None
      /\ extract w url soup = Ok (None, soup)
      /\ forall content (c : Crawl),
           page_content w url = Ok content ->
           BeautifulSoup w content = Ok soup ->
           try_body w url (self_of c)
           = find_links w url (Soup.find_all_a_href soup) (self_of c)
           /\ markdown_content (self_of (attempt w url c))
              = markdown_content (self_of c)
           /\ ((find_links w url (Soup.find_all_a_href soup)
                  (self_of c)).2 = Ok tt ->
               printed (attempt w url c) = printed c
               /\ escapes w url c = None)).
Proof.
  pose proof (find_first "main" soup) as Hmain.
  pose proof (find_first "article" soup) as Hart.
  pose proof (find_first "body" soup) as Hbody.
  split_and!.
  - unfold select_region. rewrite <- Hmain, <- Hart, <- Hbody.
    destruct (Soup.find "main" soup) as [[p r]|]; [reflexivity |].
    destruct (Soup.find "article" soup) as [[p r]|]; reflexivity.
  - intros p region Hsel.
    assert (Hin : Soup.lookup p soup = Some region
                  /\ Soup.named ["main"; "article"; "body"] region = true).
    { revert Hsel. unfold select_region.
      destruct (Soup.find "main" soup) as [r|] eqn:E1.
      { intros [= ->]. destruct (find_sound _ _ _ _ E1) as (Hn & Hl).
        split; [exact Hl |]. eapply named_weaken; [| exact Hn]. set_solver. }
      destruct (Soup.find "article" soup) as [r|] eqn:E2.
      { intros [= ->]. destruct (find_sound _ _ _ _ E2) as (Hn & Hl).
        split; [exact Hl |]. eapply named_weaken; [| exact Hn]. set_solver. }
      intros E3. destruct (find_sound _ _ _ _ E3) as (Hn & Hl).
      split; [exact Hl |]. eapply named_weaken; [| exact Hn]. set_solver. }
    destruct Hin as (Hl & Hn). split_and!; [exact Hl | exact Hn |].
    intros resolved markdown Hres Hmd.
    unfold extract. rewrite Hsel, Hres. cbn [bind]. rewrite Hmd. reflexivity.
  - intros H1 H2 H3. rewrite H1 in Hmain. rewrite H2 in Hart.
    rewrite H3 in Hbody.
    assert (Hnone : select_region soup = None).
    { unfold select_region.
      destruct (Soup.find "main" soup) as [[p r]|]; [discriminate |].
      destruct (Soup.find "article" soup) as [[p r]|]; [discriminate |].
      destruct (Soup.find "body" soup) as [[p r]|]; [discriminate | done]. }
    assert (He : extract w url soup = Ok (None, soup)).
    { unfold extract. now rewrite Hnone. }
    split_and!; [exact Hnone | exact He |].
    intros content c Hc Hb.
    assert (Ht : try_body w url (self_of c)
                 = find_links w url (Soup.find_all_a_href soup) (self_of c)).
    { unfold try_body, load. rewrite Hc. simpl. rewrite Hb. simpl.
      now rewrite He. }
    split_and!; [exact Ht | |].
    + rewrite attempt_self, Ht.
      apply (find_links_frame w url (Soup.find_all_a_href soup) (self_of c)).
    + intros Hok. unfold attempt, escapes, try_except. rewrite Ht.
      destruct (find_links w url (Soup.find_all_a_href soup) (self_of c))
        as [self' [[]|e]]; [done | discriminate].
Qed.

Lemma region_by_priority_witness :
  let w := Demo.world [(Demo.S, Demo.bare_page)] in
  (select_region Demo.layered_page
   = Some ([0; 1; 1], Tag "main" [] [NavigableString "Core"; Demo.anchor Demo.A])
   /\ exists block soup',
        extract w Demo.S Demo.layered_page = Ok (Some block, soup'))
  /\ extract w Demo.S Demo.bare_page = Ok (None, Demo.bare_page)
  /\ markdown_content (self_of (attempt w Demo.S (start Demo.seed))) = []
  /\ printed (attempt w Demo.S (start Demo.seed)) = []
  /\ queue (self_of (attempt w Demo.S (start Demo.seed)))
     = [Demo.S; Demo.A].
Proof.
  intros w. split.
  - split; [reflexivity |].
    destruct (region_by_priority w Demo.S Demo.layered_page) as (_ & H & _).
    destruct (H [0; 1; 1]
                (Tag "main" [] [NavigableString "Core"; Demo.anchor Demo.A])
                eq_refl) as (_ & _ & Hx).
    eexists _, _. exact (Hx _ _ eq_refl eq_refl).
  - destruct (region_by_priority w Demo.S Demo.bare_page) as (_ & _ & H).
    destruct (H eq_refl eq_refl eq_refl) as (_ & He & Hrest).
    destruct (Hrest Demo.S (start Demo.seed) eq_refl eq_refl)
      as (Ht & Hm & Hp).
    split_and!.
    + exact He.
    + exact Hm.
    + apply Hp. reflexivity.
    + rewrite attempt_self, Ht. reflexivity.
Defined.

(** ** The heading of a page *)



(** ** The links of a page *)

(** C2 does not hold of the code.  The page has its only link in a [nav]
    inside the body, and neither [main] nor [article]: the body is the
    region, the clean-up takes the [nav] out of the very tree the link scan
    then reads, and the link is not found.  The crawl stops after the seed
    although the document links to another page of the site. *)
Theorem nav_link_lost :
  let w := Demo.world Demo.nav_site in
  Soup.find_all_a_href Demo.nav_page = ["/guide"]
  /\ urljoin w Demo.S "/guide" = Ok "https://docs.example.com/guide"
  /\ is_valid_url w Demo.seed "https://docs.example.com/guide" = Ok true
  /\ page_hrefs w Demo.S = []
  /\ described (run w 10 (start Demo.seed)) = [Demo.S]
  /\ queue (self_of (run w 10 (start Demo.seed))) = []
  /\ printed (run w 10 (start Demo.seed)) = [].
Proof. cbv zeta. split_and!; vm_compute; reflexivity. Qed.

(** ** Breadth first *)

Section Breadth.
Context (w : World).

Lemma init_frontier_ok (seed_url out : string) (self : Scraper) :
  init w seed_url out = Ok self ->
  start_url self = seed_url
  /\ frontier_ok (start self) /\ parents_first w seed_url (start self).
Proof.
  unfold init. destruct (urlparse w seed_url) as [ps|e]; [| done].
  simpl. intros [= <-]. split; [done |]. split.
  - unfold frontier_ok, frontier_order. simpl. split_and!.
    + apply NoDup_singleton.
    + intros u ->%list_elem_of_singleton. set_solver.
    + set_solver.
  - intros j u. unfold frontier_order. simpl.
    destruct j as [|j]; simpl; [| done]. intros [= <-]. now left.
Qed.

Lemma joined_from_picked (url : string) (picked new : list string)
    (u : string) :
  Forall2 (fun h u => urljoin w url h = Ok u) picked new ->
  u ∈ new -> exists h, h ∈ picked /\ urljoin w url h = Ok u.
Proof.
  induction 1 as [|h v picked new Hj _ IH]; [inversion 1 |].
  intros [->|Hin]%elem_of_cons.
  - exists h. split; [left | exact Hj].
  - destruct (IH Hin) as (h' & Hh & Hj'). exists h'.
    split; [now right | exact Hj'].
Qed.

(** A turn of the loop in a run that began with [Scraper(...)]: the URL at
    the head of the queue is taken, never dropped, and what the page adds
    goes to the end of the queue. *)
Lemma iteration_ok (c c' : Crawl) :
  frontier_ok c -> iteration w c = Some c' ->
  exists url q new,
    queue (self_of c) = url :: q
    /\ described c' = described c ++ [url]
    /\ queue (self_of c') = q ++ new
    /\ links_added w url (page_hrefs w url)
         (visited_add (normalize_url url) (set_queue q (self_of c)))
         (self_of c') new
    /\ frontier_ok c'.
Proof.
  intros (Hnd & Hseen & Hvis) Hit.
  destruct (iteration_cases w c) as [[_ H] | [(url & q & Hq & Hv & H) |
                                             (url & q & Hq & Hv & H)]];
    rewrite H in Hit; [done | |].
  - exfalso. unfold frontier_order in Hnd. rewrite Hq in Hnd.
    rewrite map_app in Hnd. apply NoDup_app in Hnd as (_ & Hdis & _).
    apply (Hdis _ (Hvis _ Hv)). simpl. left.
  - injection Hit as <-.
    set (c1 := {| self_of := visited_add (normalize_url url)
                               (set_queue q (self_of c));
                  described := described c ++ [url];
                  printed := printed c |}).
    destruct (try_body_added w url (self_of c1)) as (new & Hadd).
    rewrite <- (attempt_self w url c1) in Hadd.
    pose proof Hadd as (Hq' & Hs' & Hndn & Hall & _).
    exists url, q, new. rewrite attempt_described.
    split_and!; [done | done | exact Hq' | exact Hadd |].
    assert (Horder : frontier_order (attempt w url c1)
                     = frontier_order c ++ new).
    { unfold frontier_order. rewrite attempt_described, Hq', Hq. simpl.
      rewrite <- !app_assoc. reflexivity. }
    unfold frontier_ok. rewrite Horder. split_and!.
    + rewrite map_app. apply NoDup_app. split_and!; [done | | done].
      intros k (u & -> & Hu)%list_elem_of_fmap
               (v & Hk & Hvn)%list_elem_of_fmap.
      destruct (Hall v Hvn) as (Hns & _). apply Hns. simpl.
      rewrite <- Hk. now apply Hseen.
    + intros u [Hu|Hu]%elem_of_app; rewrite Hs'; simpl.
      * apply elem_of_union_r. now apply Hseen.
      * apply elem_of_union_l, elem_of_list_to_set.
        apply list_elem_of_fmap. now exists u.
    + intros k. rewrite attempt_visited, attempt_described. simpl.
      rewrite map_app. intros [->%elem_of_singleton|Hk]%elem_of_union.
      * apply elem_of_app. right. simpl. left.
      * apply elem_of_app. left. now apply Hvis.
Qed.

Lemma iteration_order (c c' : Crawl) :
  frontier_ok c -> iteration w c = Some c' ->
  exists new, frontier_order c' = frontier_order c ++ new.
Proof.
  intros Hok Hit.
  destruct (iteration_ok c c' Hok Hit) as (url & q & new & Hq & Hd & Hq' & _).
  exists new. unfold frontier_order. rewrite Hd, Hq', Hq.
  rewrite <- !app_assoc. reflexivity.
Qed.

Lemma iteration_parents (seed_url : string) (c c' : Crawl) :
  frontier_ok c -> parents_first w seed_url c ->
  iteration w c = Some c' -> parents_first w seed_url c'.
Proof.
  intros Hok Hpar Hit.
  destruct (iteration_ok c c' Hok Hit)
    as (url & q & new & Hq & Hd & Hq' & Hadd & _).
  destruct Hadd as (_ & _ & _ & _ & picked & Hsub & Hf2).
  assert (Horder : frontier_order c' = frontier_order c ++ new).
  { unfold frontier_order. rewrite Hd, Hq', Hq.
    rewrite <- !app_assoc. reflexivity. }
  intros j u Hj. rewrite Horder in Hj.
  destruct (decide (j < length (frontier_order c))) as [Hlt|Hge].
  - rewrite lookup_app_l in Hj by exact Hlt.
    destruct (Hpar j u Hj) as [->|(i & p & Hi & Hp & Hdisc)]; [now left |].
    right. exists i, p. split_and!; [done | | done].
    rewrite Hd. apply lookup_app_l_Some. exact Hp.
  - rewrite lookup_app_r in Hj by lia.
    apply list_elem_of_lookup_2 in Hj.
    destruct (joined_from_picked url picked new u Hf2 Hj) as (h & Hh & Hjoin).
    right. exists (length (described c)), url. split_and!.
    + unfold frontier_order in Hge. rewrite length_app, Hq in Hge.
      simpl in Hge. lia.
    + rewrite Hd. rewrite lookup_app_r by lia.
      now rewrite Nat.sub_diag.
    + exists h. split; [| exact Hjoin].
      exact (sublist_subseteq _ _ Hsub h Hh).
Qed.

Lemma run_ok (seed_url : string) (n : nat) (c : Crawl) :
  frontier_ok c -> parents_first w seed_url c ->
  frontier_ok (run w n c) /\ parents_first w seed_url (run w n c)
  /\ exists new, frontier_order (run w n c) = frontier_order c ++ new.
Proof.
  revert c. induction n as [|n IH]; intros c Hok Hpar; simpl.
  - split_and!; [done | done |]. exists []. now rewrite app_nil_r.
  - destruct (iteration w c) as [c'|] eqn:Hit.
    + destruct (iteration_ok c c' Hok Hit) as (_ & _ & _ & _ & _ & _ & _ & Hok').
      pose proof (iteration_parents seed_url c c' Hok Hpar Hit) as Hpar'.
      destruct (iteration_order c c' Hok Hit) as (new1 & H1).
      destruct (IH c' Hok' Hpar') as (? & ? & new2 & H2).
      split_and!; [done | done |].
      exists (new1 ++ new2). rewrite H2, H1, <- app_assoc. reflexivity.
    + split_and!; [done | done |]. exists []. now rewrite app_nil_r.
Qed.

Lemma iteration_levels (c c' : Crawl) (levels : list nat) :
  frontier_ok c -> level_order w c levels -> iteration w c = Some c' ->
  exists levels', level_order w c' levels'.
Proof.
  intros Hok (Hlen & Hmono & Hzero & Hpar & Hbound) Hit.
  destruct (iteration_ok c c' Hok Hit)
    as (url & q & new & Hq & Hd & Hq' & Hadd & _).
  destruct Hadd as (_ & _ & _ & _ & picked & Hsub & Hf2).
  assert (Horder : frontier_order c' = frontier_order c ++ new).
  { unfold frontier_order. rewrite Hd, Hq', Hq.
    rewrite <- !app_assoc. reflexivity. }
  assert (Hlo : length (frontier_order c) = length (described c) + S (length q)).
  { unfold frontier_order. rewrite length_app, Hq. reflexivity. }
  destruct (lookup_lt_is_Some_2 levels (length (described c))) as (d & Hhead);
    [lia |].
  exists (levels ++ replicate (length new) (S d)).
  assert (Hnew : forall j b,
            length levels <= j ->
            (levels ++ replicate (length new) (S d)) !! j = Some b ->
            b = S d).
  { intros j b Hj Hl. rewrite lookup_app_r in Hl by exact Hj.
    now apply lookup_replicate in Hl as (-> & _). }
  assert (Hold : forall j b,
            j < length levels ->
            (levels ++ replicate (length new) (S d)) !! j = Some b ->
            levels !! j = Some b).
  { intros j b Hj Hl. now rewrite lookup_app_l in Hl by exact Hj. }
  unfold level_order. rewrite Horder, Hd. split_and!.
  - rewrite !length_app, length_replicate. lia.
  - intros i j a b Hij Ha Hb.
    destruct (decide (j < length levels)) as [Hj|Hj].
    + apply (Hmono i j a b Hij); apply Hold; (lia || done).
    + rewrite (Hnew j b) by (lia || done).
      destruct (decide (i < length levels)) as [Hi|Hi].
      * apply (Hbound i d a Hhead). apply Hold; done.
      * rewrite (Hnew i a) by (lia || done). lia.
  - intros a Ha. apply Hzero. apply Hold; [lia | done].
  - intros j u Hj Hu.
    destruct (decide (j < length (frontier_order c))) as [Hlt|Hge].
    + rewrite lookup_app_l in Hu by exact Hlt.
      destruct (Hpar j u Hj Hu) as (i & p & a & Hi & Hp & Hdisc & Ha & Hb).
      exists i, p, a. split_and!; [done | | done | |].
      * now apply lookup_app_l_Some.
      * now apply lookup_app_l_Some.
      * now apply lookup_app_l_Some.
    + rewrite lookup_app_r in Hu by lia.
      pose proof (lookup_lt_Some _ _ _ Hu) as Hjn.
      apply list_elem_of_lookup_2 in Hu.
      destruct (joined_from_picked url picked new u Hf2 Hu) as (h & Hh & Hjoin).
      exists (length (described c)), url, d. split_and!.
      * lia.
      * rewrite lookup_app_r by lia. now rewrite Nat.sub_diag.
      * exists h. split; [| exact Hjoin].
        exact (sublist_subseteq _ _ Hsub h Hh).
      * now apply lookup_app_l_Some.
      * rewrite lookup_app_r by lia. apply lookup_replicate. split; [done | lia].
  - intros j a b Ha Hb. rewrite length_app in Ha. simpl in Ha.
    assert (Hda : d <= a).
    { destruct (decide (length (described c) + 1 < length levels)) as [Hi|Hi].
      - apply (Hmono (length (described c)) (length (described c) + 1) d a);
          [lia | done | now apply Hold].
      - rewrite (Hnew (length (described c) + 1) a) by (lia || done).
        lia. }
    destruct (decide (j < length levels)) as [Hj|Hj].
    + pose proof (Hbound j d b Hhead (Hold j b Hj Hb)). lia.
    + rewrite (Hnew j b) by (lia || done). lia.
Qed.

Lemma run_levels (n : nat) (c : Crawl) (levels : list nat) :
  frontier_ok c -> level_order w c levels ->
  exists levels', level_order w (run w n c) levels'.
Proof.
  revert c levels. induction n as [|n IH]; intros c levels Hok Hlv; simpl.
  - now exists levels.
  - destruct (iteration w c) as [c'|] eqn:Hit; [| now exists levels].
    destruct (iteration_levels c c' levels Hok Hlv Hit) as (levels' & Hlv').
    destruct (iteration_ok c c' Hok Hit) as (_ & _ & _ & _ & _ & _ & _ & Hok').
    exact (IH c' levels' Hok' Hlv').
Qed.

Lemma init_levels (seed_url out : string) (self : Scraper) :
  init w seed_url out = Ok self -> level_order w (start self) [0].
Proof.
  unfold init. destruct (urlparse w seed_url) as [ps|e]; [| done].
  simpl. intros [= <-]. unfold level_order, frontier_order. simpl.
  split_and!.
  - done.
  - intros [|i] [|j] a b Hij; simpl; intros Ha Hb; try done.
    congruence.
  - now intros a [= <-].
  - intros [|j] u Hj; [lia | done].
  - intros [|j] a b [= <-]; simpl; [| done]. intros [= <-]. lia.
Qed.

Lemma run_add (n k : nat) (c : Crawl) :
  run w (n + k) c = run w k (run w n c).
Proof.
  revert c. induction n as [|n IH]; intros c; simpl; [done |].
  destruct (iteration w c) as [c'|] eqn:Hit; [apply IH |].
  destruct k as [|k]; simpl; [done |]. now rewrite Hit.
Qed.

End Breadth.

(** C7: in a run that began with [Scraper(seed_url, out)], every turn takes
    the URL at the head of the queue for processing and puts what the page
    adds at the end of the queue, in the order of the page's anchors.  So
    the sequence of the URLs processed and waiting only ever grows at its
    end: pages are processed in the order in which they were found.  Every
    URL of that sequence other than the seed stands after a processed page
    with an anchor that joins to it, and the sequence goes level by level:
    with the seed at depth 0 and every URL one deeper than the page that
    added it, the depths never decrease along the sequence.  On the site
    where the seed links to A and B and A links to C, the loop ends and the
    pages were processed in the order seed, A, B, C. *)
Theorem breadth_first_order (w : World) (seed_url out : string)
    (self : Scraper) :
  init w seed_url out = Ok self ->
  (forall n c', iteration w (run w n (start self)) = Some c' ->
     exists url q new picked,
       queue (self_of (run w n (start self))) = url :: q
       /\ described c' = described (run w n (start self)) ++ [url]
       /\ queue (self_of c') = q ++ new
       /\ sublist picked (page_hrefs w url)
       /\ Forall2 (fun h u => urljoin w url h = Ok u) picked new)
  /\ (forall n m, n <= m ->
        frontier_order (run w n (start self))
          `prefix_of` frontier_order (run w m (start self)))
  /\ (forall n, parents_first w seed_url (run w n (start self)))
  /\ (forall n, exists levels, level_order w (run w n (start self)) levels)
  /\ (exists c, crawl_loop (Demo.world Demo.bfs_site) 10 (start Demo.seed)
                = Some c
                /\ described c = [Demo.S; Demo.A; Demo.B; Demo.C]).
Proof.
  intros Hinit.
  destruct (init_frontier_ok w seed_url out self Hinit) as (_ & Hok & Hpar).
  split_and!.
  - intros n c' Hit.
    destruct (run_ok w seed_url n (start self) Hok Hpar) as (Hokn & _ & _).
    destruct (iteration_ok w _ c' Hokn Hit)
      as (url & q & new & Hq & Hd & Hq' & Hadd & _).
    destruct Hadd as (_ & _ & _ & _ & picked & Hsub & Hf2).
    exists url, q, new, picked. done.
  - intros n m Hle. replace m with (n + (m - n)) by lia.
    rewrite run_add.
    destruct (run_ok w seed_url n (start self) Hok Hpar) as (Hokn & Hparn & _).
    destruct (run_ok w seed_url (m - n) _ Hokn Hparn) as (_ & _ & new & ->).
    now exists new.
  - intros n. now destruct (run_ok w seed_url n (start self) Hok Hpar)
      as (_ & ? & _).
  - intros n. exact (run_levels w n (start self) [0] Hok
                       (init_levels w seed_url out self Hinit)).
  - eexists. split; vm_compute; reflexivity.
Qed.

Lemma breadth_first_order_witness :
  let w := Demo.world Demo.bfs_site in
  frontier_order (run w 1 (start Demo.seed))
    `prefix_of` frontier_order (run w 4 (start Demo.seed))
  /\ parents_first w Demo.S (run w 4 (start Demo.seed)).
Proof.
  intros w.
  destruct (breadth_first_order w Demo.S "docs.md" Demo.seed eq_refl)
    as (_ & H2 & H3 & _ & _).
  split.
  - apply (H2 1 4). lia.
  - exact (H3 4).
Defined.

(** ** The examples compute *)

Example demo_init : Demo.scraper Demo.bfs_site = Ok Demo.seed.
Proof. reflexivity. Qed.

Example demo_bfs_order :
  described (run (Demo.world Demo.bfs_site) 10 (start Demo.seed))
  = [Demo.S; Demo.A; Demo.B; Demo.C].
Proof. vm_compute. reflexivity. Qed.

Example demo_dup_order :
  described (run (Demo.world Demo.dup_site) 10 (start Demo.seed))
  = [Demo.S; Demo.A; "https://docs.example.com/missing"].
Proof. vm_compute. reflexivity. Qed.

Example demo_crawl_ends :
  exists f, crawl (Demo.world Demo.dup_site) 10 Demo.seed = Some (Ok f)
    /\ described (final f)
       = [Demo.S; Demo.A; "https://docs.example.com/missing"]
    /\ printed (final f)
       = [error_line "https://docs.example.com/missing"
            "net::ERR_NAME_NOT_RESOLVED";
          "[green]Scraping complete! Saved to docs.md[/green]";
          "Total pages visited: 3"].
Proof. eexists. split; [vm_compute; reflexivity|]. split; reflexivity. Qed.

Example demo_crawl_needs_fuel :
  crawl (Demo.world Demo.bfs_site) 4 Demo.seed = None.
Proof. vm_compute. reflexivity. Qed.

(** * Further properties *)

(** ** More on [normalize_url] *)

(** X1: the key is a prefix of the URL and holds no [#]; a URL is its own
    key exactly when it holds no [#] and does not end with [/]. *)
Theorem normalize_url_fixed_points (u : string) :
  (exists rest, u = normalize_url u +:+ rest)
  /\ PyStr.contains PyStr.hash (normalize_url u) = false
  /\ (normalize_url u = u
      <-> PyStr.contains PyStr.hash u = false
          /\ PyStr.endswith PyStr.slash u = false).
Proof.
  split_and!.
  - unfold normalize_url.
    destruct (rstrip_tail PyStr.slash (PyStr.split_head PyStr.hash u))
      as (n & Hn).
    destruct (split_head_prefix PyStr.hash u) as [Hu | (rest & Hu)].
    + exists (PyStr.replicate n PyStr.slash). now rewrite <- Hn.
    + exists (PyStr.replicate n PyStr.slash +:+ String PyStr.hash rest).
      rewrite <- append_assoc, <- Hn. exact Hu.
  - apply normalize_url_free.
  - split.
    + intros H. split.
      * rewrite <- H. apply normalize_url_free.
      * rewrite <- H. apply rstrip_endswith.
    + intros (Hh & He). unfold normalize_url.
      rewrite (split_head_id _ _ Hh). now apply rstrip_id.
Qed.

(** ** More on the collapsing of newlines *)

Section CollapseMore.
Import PyStr.

Lemma re_sub_true_leading (r : string) :
  leading newline (re_sub_newlines true r) = 0.
Proof.
  induction r as [|c r IH]; [reflexivity |].
  rewrite re_sub_cons. destruct (Ascii.eqb c newline) eqn:Ec; [exact IH |].
  simpl. now rewrite Ec.
Qed.

Lemma re_sub_false_leading (r : string) :
  leading newline (re_sub_newlines false r)
  = Nat.min (leading newline r) 2.
Proof.
  induction r as [|c r IH]; [reflexivity |].
  rewrite re_sub_cons.
  destruct (Ascii.eqb_spec c newline) as [->|Hc].
  - rewrite leading_newline.
    destruct (Nat.leb 2 (leading newline r)) eqn:E.
    + apply Nat.leb_le in E. rewrite !leading_newline, re_sub_true_leading. lia.
    + apply Nat.leb_gt in E. rewrite leading_newline, IH. lia.
  - simpl. apply Ascii.eqb_neq in Hc. now rewrite Hc.
Qed.

Lemma has_triple_cons (c : ascii) (r : string) :
  has_triple_newline (String c r)
  = (Ascii.eqb c newline && Nat.leb 2 (leading newline r))
    || has_triple_newline r.
Proof. reflexivity. Qed.

Lemma re_sub_no_triple (flag : bool) (s : string) :
  has_triple_newline (re_sub_newlines flag s) = false.
Proof.
  revert flag. induction s as [|c r IH]; intros flag; [reflexivity |].
  rewrite re_sub_cons.
  destruct (Ascii.eqb c newline) eqn:Ec.
  - destruct flag; [apply IH |].
    destruct (Nat.leb 2 (leading newline r)) eqn:E.
    + rewrite !has_triple_cons, leading_newline, re_sub_true_leading, IH.
      now rewrite !andb_false_r.
    + apply Nat.leb_gt in E.
      rewrite has_triple_cons, re_sub_false_leading, IH, Ec, orb_false_r.
      rewrite andb_true_l. apply Nat.leb_gt. lia.
  - now rewrite has_triple_cons, Ec, IH.
Qed.

Lemma without_newlines_cons (c : ascii) (r : string) :
  without_newlines (String c r)
  = if Ascii.eqb c newline then without_newlines r
    else String c (without_newlines r).
Proof. reflexivity. Qed.

Lemma re_sub_without_newlines (flag : bool) (s : string) :
  without_newlines (re_sub_newlines flag s) = without_newlines s.
Proof.
  revert flag. induction s as [|c r IH]; intros flag; [reflexivity |].
  rewrite re_sub_cons, (without_newlines_cons c r).
  destruct (Ascii.eqb c newline) eqn:Ec.
  - destruct flag; [apply IH |].
    destruct (Nat.leb 2 (leading newline r)).
    + rewrite !without_newlines_cons, Ascii.eqb_refl. apply IH.
    + rewrite without_newlines_cons, Ec. apply IH.
  - rewrite without_newlines_cons, Ec. f_equal. apply IH.
Qed.

Lemma re_sub_id (s : string) :
  has_triple_newline s = false -> re_sub_newlines false s = s.
Proof.
  induction s as [|c r IH]; [reflexivity |].
  rewrite has_triple_cons, re_sub_cons.
  intros [H1 H2]%orb_false_iff.
  destruct (Ascii.eqb c newline).
  - rewrite andb_true_l in H1. rewrite H1. f_equal. now apply IH.
  - f_equal. now apply IH.
Qed.

Lemma has_triple_tail (c : ascii) (r : string) :
  has_triple_newline (String c r) = false -> has_triple_newline r = false.
Proof. rewrite has_triple_cons. now intros [_ H]%orb_false_iff. Qed.

Lemma lstrip_ws_no_triple (s : string) :
  has_triple_newline s = false -> has_triple_newline (lstrip_ws s) = false.
Proof.
  induction s as [|a r IH]; [reflexivity |].
  intros H. simpl. destruct (isspace a); [| exact H].
  apply IH. exact (has_triple_tail _ _ H).
Qed.

Lemma rstrip_ws_leading (c : ascii) (s : string) :
  leading c (rstrip_ws s) <= leading c s.
Proof.
  induction s as [|a r IH]; [reflexivity |].
  simpl. destruct (isspace a && is_empty (rstrip_ws r)); simpl; [lia |].
  destruct (Ascii.eqb a c); lia.
Qed.

Lemma rstrip_ws_no_triple (s : string) :
  has_triple_newline s = false -> has_triple_newline (rstrip_ws s) = false.
Proof.
  induction s as [|a r IH]; [reflexivity |].
  rewrite has_triple_cons. intros [H1 H2]%orb_false_iff.
  simpl. destruct (isspace a && is_empty (rstrip_ws r)); [reflexivity |].
  rewrite has_triple_cons, (IH H2), orb_false_r.
  destruct (Ascii.eqb a newline); [| reflexivity].
  rewrite andb_true_l in *.
  apply Nat.leb_gt. apply Nat.leb_gt in H1.
  pose proof (rstrip_ws_leading newline r). lia.
Qed.

Lemma lstrip_ws_id (s : string) :
  starts_space s = false -> lstrip_ws s = s.
Proof. destruct s as [|a r]; simpl; [done |]. now intros ->. Qed.

Lemma rstrip_ws_id (s : string) :
  ends_space s = false -> rstrip_ws s = s.
Proof.
  induction s as [|a r IH]; [reflexivity |].
  destruct r as [|b t].
  - simpl. now intros ->.
  - intros H. change (ends_space (String b t) = false) in H.
    change (rstrip_ws (String a (String b t)))
      with (if isspace a && is_empty (rstrip_ws (String b t))
            then EmptyString else String a (rstrip_ws (String b t))).
    rewrite (IH H). simpl. now rewrite andb_false_r.
Qed.

Lemma strip_idem (s : string) : strip (strip s) = strip s.
Proof.
  destruct (strip_split s) as (l & r & _ & _ & _ & Hs & He).
  unfold strip at 1. rewrite (lstrip_ws_id _ Hs). now apply rstrip_ws_id.
Qed.

End CollapseMore.

(** X2: whatever the markup, the substitution leaves no three newlines in
    a row, and it touches nothing but newlines: the text without its
    newlines is the same before and after. *)
Theorem re_sub_only_drops_newlines (s : string) :
  has_triple_newline (re_sub_newlines false s) = false
  /\ without_newlines (re_sub_newlines false s) = without_newlines s
  /\ PyStr.leading PyStr.newline (re_sub_newlines false s)
     = Nat.min (PyStr.leading PyStr.newline s) 2.
Proof.
  split_and!.
  - apply re_sub_no_triple.
  - apply re_sub_without_newlines.
  - apply re_sub_false_leading.
Qed.

(** X3: the post-processing is idempotent: a markup that went through it
    comes out of it unchanged; and the substitution alone changes no text
    that has no three newlines in a row. *)
Theorem post_process_idempotent (s : string) :
  post_process (post_process s) = post_process s
  /\ has_triple_newline (post_process s) = false
  /\ (has_triple_newline s = false -> re_sub_newlines false s = s).
Proof.
  assert (Hn : has_triple_newline (post_process s) = false).
  { unfold post_process, PyStr.strip.
    apply rstrip_ws_no_triple, lstrip_ws_no_triple, re_sub_no_triple. }
  split_and!; [| exact Hn | apply re_sub_id].
  unfold post_process at 1. rewrite (re_sub_id _ Hn).
  unfold post_process. apply strip_idem.
Qed.

Lemma post_process_idempotent_witness :
  re_sub_newlines false ("a" +:+ PyStr.blank_lines 1 +:+ "b")
  = "a" +:+ PyStr.blank_lines 1 +:+ "b".
Proof.
  apply (post_process_idempotent ("a" +:+ PyStr.blank_lines 1 +:+ "b")).
  reflexivity.
Defined.

(** ** More on the document tree *)

Section SoupMore.

Lemma hrefs_from_tag (nm : string) (at_ : list (string * string))
    (cs : list node) :
  Soup.hrefs_from (Tag nm at_ cs)
  = (if String.eqb nm "a"
     then match Soup.get "href" at_ with Some h => [h] | None => [] end
     else [])
    ++ concat (map Soup.hrefs_from cs).
Proof.
  cbn [Soup.hrefs_from]. f_equal.
  induction cs as [|c cs IH]; [reflexivity |].
  cbn [map concat]. now rewrite <- IH.
Qed.

Lemma decompose_all_tag (names : list string) (nm : string)
    (at_ : list (string * string)) (cs : list node) :
  Soup.decompose_all names (Tag nm at_ cs)
  = Tag nm at_
      (map (Soup.decompose_all names)
         (List.filter (fun c => negb (Soup.named names c)) cs)).
Proof.
  cbn [Soup.decompose_all]. f_equal.
  induction cs as [|c cs IH]; [reflexivity |].
  cbn [List.filter]. destruct (Soup.named names c); cbn [negb map].
  - exact IH.
  - now rewrite <- IH.
Qed.

Lemma resolve_node_tag (join : string -> result string) (nm : string)
    (at_ : list (string * string)) (cs : list node) :
  Soup.resolve_node join (Tag nm at_ cs)
  = (call at' := Soup.resolve_tag join nm at_ in
     call cs' := resolve_list join cs in
     Ok (Tag nm at' cs')).
Proof. reflexivity. Qed.

Lemma resolve_urls_tag (join : string -> result string) (nm : string)
    (at_ : list (string * string)) (cs : list node) :
  Soup.resolve_urls join (Tag nm at_ cs)
  = (call cs' := resolve_list join cs in Ok (Tag nm at_ cs')).
Proof. reflexivity. Qed.

Lemma named_decompose (ns names : list string) (n : node) :
  Soup.named ns (Soup.decompose_all names n) = Soup.named ns n.
Proof. destruct n; reflexivity. Qed.

Lemma named_not_weaken (name : string) (names : list string) (n : node) :
  name ∈ names -> Soup.named names n = false -> Soup.named [name] n = false.
Proof.
  intros Hin Hn. destruct (Soup.named [name] n) eqn:E; [| done].
  rewrite (named_weaken name names n Hin E) in Hn. discriminate.
Qed.

Lemma find_decompose (name : string) (names : list string) (n : node) :
  name ∈ names -> Soup.find name (Soup.decompose_all names n) = None.
Proof.
  intros Hin. induction n as [s | nm at_ cs IHcs] using node_ind_children;
    [reflexivity |].
  rewrite decompose_all_tag, find_tag. generalize 0.
  induction IHcs as [|c cs Hc _ IH]; intros i; [reflexivity |].
  cbn [List.filter]. destruct (Soup.named names c) eqn:En; cbn [negb map].
  - apply IH.
  - rewrite find_scan_cons, named_decompose.
    rewrite (named_not_weaken name names c Hin En), Hc. apply IH.
Qed.

Lemma decompose_all_idem (names : list string) (n : node) :
  Soup.decompose_all names (Soup.decompose_all names n)
  = Soup.decompose_all names n.
Proof.
  induction n as [s | nm at_ cs IHcs] using node_ind_children;
    [reflexivity |].
  rewrite !decompose_all_tag. f_equal.
  induction IHcs as [|c cs Hc _ IH]; [reflexivity |].
  cbn [List.filter]. destruct (Soup.named names c) eqn:En; cbn [negb map].
  - exact IH.
  - cbn [List.filter]. rewrite named_decompose, En. cbn [negb map].
    now rewrite Hc, IH.
Qed.

Lemma decompose_all_hrefs (names : list string) (n : node) :
  Soup.hrefs_from (Soup.decompose_all names n) `sublist_of` Soup.hrefs_from n.
Proof.
  induction n as [s | nm at_ cs IHcs] using node_ind_children;
    [reflexivity |].
  rewrite decompose_all_tag, !hrefs_from_tag.
  apply sublist_app; [reflexivity |].
  induction IHcs as [|c cs Hc _ IH]; [reflexivity |].
  cbn [List.filter map concat].
  destruct (Soup.named names c); cbn [negb map concat].
  - now apply sublist_inserts_l.
  - now apply sublist_app.
Qed.

Lemma decompose_all_clean (names : list string) (n : node) :
  (forall name, name ∈ names -> Soup.find name n = None) ->
  Soup.decompose_all names n = n.
Proof.
  induction n as [s | nm at_ cs IHcs] using node_ind_children;
    [reflexivity |].
  intros Hnone. rewrite decompose_all_tag. f_equal.
  assert (Hscan : forall name, name ∈ names ->
                    forall i, find_scan name cs i = None).
  { intros name Hin. specialize (Hnone name Hin). rewrite find_tag in Hnone.
    revert Hnone. generalize 0. clear IHcs.
    induction cs as [|c cs IH]; intros i H j; [reflexivity |].
    rewrite find_scan_cons in *.
    destruct (Soup.named [name] c); [discriminate |].
    destruct (Soup.find name c) as [[p m]|]; [discriminate |].
    now apply (IH (S i)). }
  clear Hnone.
  induction IHcs as [|c cs Hc _ IH]; [reflexivity |].
  assert (Hc' : Soup.named names c = false
                /\ forall name, name ∈ names -> Soup.find name c = None).
  { split.
    - destruct c as [s | cn cat ccs]; [reflexivity |].
      simpl. apply not_true_is_false. intros (x & Hx & He)%existsb_exists.
      apply list_elem_of_In in Hx. apply String.eqb_eq in He. subst x.
      specialize (Hscan cn Hx 0). rewrite find_scan_cons in Hscan.
      simpl in Hscan. now rewrite String.eqb_refl in Hscan.
    - intros name Hin. specialize (Hscan name Hin 0).
      rewrite find_scan_cons in Hscan.
      destruct (Soup.named [name] c); [discriminate |].
      now destruct (Soup.find name c) as [[p m]|]. }
  destruct Hc' as (Hn & Hf).
  cbn [List.filter]. rewrite Hn. cbn [negb map].
  rewrite (Hc Hf). f_equal. apply IH.
  intros name Hin i. specialize (Hscan name Hin i).
  rewrite find_scan_cons in Hscan.
  destruct (Soup.named [name] c); [discriminate |].
  destruct (Soup.find name c) as [[p m]|]; [discriminate |].
  clear -Hscan. revert Hscan. generalize (S i) as k. revert i.
  induction cs as [|d cs IHd]; intros i k H; [reflexivity |].
  rewrite find_scan_cons in *.
  destruct (Soup.named [name] d); [discriminate |].
  destruct (Soup.find name d) as [[p m]|]; [discriminate |].
  now apply (IHd (S i) (S k)).
Qed.

End SoupMore.

(** X4: the clean-up of a region leaves no tag of a removed kind anywhere
    below the region, keeps the region's own tag, is idempotent, only takes
    references away (those left are in their order), and changes nothing
    in a region that holds no tag of a removed kind. *)
Theorem decompose_all_removes (names : list string) (n : node) :
  (forall name, name ∈ names ->
     Soup.find name (Soup.decompose_all names n) = None)
  /\ Soup.decompose_all names (Soup.decompose_all names n)
     = Soup.decompose_all names n
  /\ (forall ns, Soup.named ns (Soup.decompose_all names n) = Soup.named ns n)
  /\ Soup.hrefs_from (Soup.decompose_all names n)
       `sublist_of` Soup.hrefs_from n
  /\ ((forall name, name ∈ names -> Soup.find name n = None) ->
      Soup.decompose_all names n = n).
Proof.
  split_and!.
  - intros name Hin. now apply find_decompose.
  - apply decompose_all_idem.
  - intros ns. apply named_decompose.
  - apply decompose_all_hrefs.
  - apply decompose_all_clean.
Qed.

Lemma decompose_all_removes_witness :
  Soup.find "nav" (Soup.decompose_all noise Demo.nav_page) = None
  /\ Soup.decompose_all noise Demo.untitled_page = Demo.untitled_page.
Proof.
  split.
  - apply (decompose_all_removes noise Demo.nav_page).
    apply (bool_decide_unpack _). vm_compute. exact I.
  - apply (decompose_all_removes noise Demo.untitled_page).
    intros name Hin. unfold noise in Hin.
    repeat (apply elem_of_cons in Hin as [->|Hin]; [reflexivity |]).
    inversion Hin.
Defined.

(** ** The region inside the document *)

Section RegionMore.

Lemma find_scan_path (name : string) (cs : list node) (i : nat)
    (p : path) (m : node) :
  find_scan name cs i = Some (p, m) -> exists j p', p = j :: p'.
Proof.
  revert i. induction cs as [|c cs IH]; intros i; [discriminate |].
  rewrite find_scan_cons. destruct (Soup.named [name] c).
  - intros [= <- <-]. now exists i, [].
  - destruct (Soup.find name c) as [[pc mc]|].
    + intros [= <- <-]. now exists i, pc.
    + apply IH.
Qed.

Lemma find_path_nonempty (name : string) (n : node) (p : path) (m : node) :
  Soup.find name n = Some (p, m) -> exists j p', p = j :: p'.
Proof.
  destruct n as [s | nm at_ cs]; [discriminate |].
  rewrite find_tag. apply find_scan_path.
Qed.

Lemma select_region_path (soup : node) (p : path) (region : node) :
  select_region soup = Some (p, region) ->
  Soup.lookup p soup = Some region
  /\ Soup.named ["main"; "article"; "body"] region = true
  /\ exists j p', p = j :: p'.
Proof.
  unfold select_region.
  destruct (Soup.find "main" soup) as [r|] eqn:E1.
  { intros [= ->]. destruct (find_sound _ _ _ _ E1) as (Hn & Hl).
    split_and!; [done | | exact (find_path_nonempty _ _ _ _ E1)].
    eapply named_weaken; [| exact Hn]. set_solver. }
  destruct (Soup.find "article" soup) as [r|] eqn:E2.
  { intros [= ->]. destruct (find_sound _ _ _ _ E2) as (Hn & Hl).
    split_and!; [done | | exact (find_path_nonempty _ _ _ _ E2)].
    eapply named_weaken; [| exact Hn]. set_solver. }
  intros E3. destruct (find_sound _ _ _ _ E3) as (Hn & Hl).
  split_and!; [done | | exact (find_path_nonempty _ _ _ _ E3)].
  eapply named_weaken; [| exact Hn]. set_solver.
Qed.

(** Writing at a place of the tree changes the references found there and
    no others. *)
Lemma hrefs_store (p : path) (n r : node) :
  Soup.lookup p n = Some r ->
  exists pre post,
    Soup.hrefs_from n = pre ++ Soup.hrefs_from r ++ post
    /\ forall m,
         Soup.hrefs_from (Soup.store p m n) = pre ++ Soup.hrefs_from m ++ post
         /\ Soup.lookup p (Soup.store p m n) = Some m.
Proof.
  revert n. induction p as [|i p IH]; intros n.
  - intros [= ->]. exists [], []. rewrite app_nil_r. split; [done |].
    intros m. simpl. now rewrite app_nil_r.
  - destruct n as [s | nm at_ cs]; [discriminate |].
    cbn [Soup.lookup]. destruct (cs !! i) as [c|] eqn:Ec; [| discriminate].
    intros Hl. destruct (IH c Hl) as (pre & post & Hh & Hm).
    pose proof (lookup_lt_Some _ _ _ Ec) as Hi.
    set (own := if String.eqb nm "a"
                then match Soup.get "href" at_ with
                     | Some h => [h] | None => [] end
                else []).
    exists (own ++ concat (map Soup.hrefs_from (firstn i cs)) ++ pre),
           (post ++ concat (map Soup.hrefs_from (skipn (S i) cs))).
    split.
    + rewrite hrefs_from_tag. fold own.
      rewrite <- (take_drop_middle cs i c Ec) at 1.
      rewrite map_app, concat_app. cbn [map concat].
      rewrite Hh, <- !app_assoc. reflexivity.
    + intros m. destruct (Hm m) as (Hh' & Hl').
      cbn [Soup.store Soup.lookup]. rewrite Ec. split.
      * rewrite hrefs_from_tag. fold own.
        rewrite insert_take_drop by exact Hi.
        rewrite map_app, concat_app. cbn [map concat].
        rewrite Hh', <- !app_assoc. reflexivity.
      * rewrite list_lookup_insert_eq by exact Hi. exact Hl'.
Qed.

Lemma hrefs_from_not_anchor (n : node) :
  Soup.named ["a"] n = false -> Soup.hrefs_from n = Soup.find_all_a_href n.
Proof.
  destruct n as [s | nm at_ cs]; [reflexivity |].
  rewrite hrefs_from_tag. cbn [Soup.named existsb]. rewrite orb_false_r.
  now intros ->.
Qed.

Lemma find_all_store (i : nat) (p : path) (soup r : node) :
  Soup.lookup (i :: p) soup = Some r ->
  exists pre post,
    Soup.find_all_a_href soup = pre ++ Soup.hrefs_from r ++ post
    /\ forall m,
         Soup.find_all_a_href (Soup.store (i :: p) m soup)
         = pre ++ Soup.hrefs_from m ++ post
         /\ Soup.lookup (i :: p) (Soup.store (i :: p) m soup) = Some m.
Proof.
  destruct soup as [s | nm at_ cs]; [discriminate |].
  intros Hl. destruct (hrefs_store (i :: p) (Tag "" [] cs) r) as
    (pre & post & Hh & Hm).
  { exact Hl. }
  exists pre, post. split.
  - rewrite hrefs_from_tag in Hh. exact Hh.
  - intros m. destruct (Hm m) as (Hh' & Hl'). split.
    + cbn [Soup.store] in *. rewrite hrefs_from_tag in Hh'. exact Hh'.
    + cbn [Soup.store Soup.lookup] in *. exact Hl'.
Qed.

End RegionMore.

(** X5: the region taken from a document is a reference into it.  What is
    written through the reference is what is read back through it, and
    the anchors of the document before and after the region are found as
    they were, whatever is done to the region. *)
Theorem links_outside_region_kept (soup : node) (p : path) (region : node) :
  select_region soup = Some (p, region) ->
  exists pre post,
    Soup.find_all_a_href soup = pre ++ Soup.find_all_a_href region ++ post
    /\ forall m,
         Soup.find_all_a_href (Soup.store p m soup)
         = pre ++ Soup.hrefs_from m ++ post
         /\ Soup.lookup p (Soup.store p m soup) = Some m.
Proof.
  intros Hsel.
  destruct (select_region_path soup p region Hsel) as (Hl & Hn & j & p' & ->).
  destruct (find_all_store j p' soup region Hl) as (pre & post & Hh & Hm).
  exists pre, post. split; [| exact Hm].
  rewrite <- (hrefs_from_not_anchor region); [exact Hh |].
  destruct region as [s | nm at_ cs]; [reflexivity |].
  cbn [Soup.named existsb] in *. rewrite orb_false_r in *.
  destruct (String.eqb_spec nm "a") as [->|]; [discriminate | reflexivity].
Qed.

Lemma links_outside_region_kept_witness :
  exists pre post,
    Soup.find_all_a_href Demo.nav_page
    = pre ++ Soup.find_all_a_href
               (Tag "body" []
                  [Tag "nav" [] [Demo.anchor "/guide"];
                   Tag "p" [] [NavigableString "Welcome"]]) ++ post.
Proof.
  destruct (links_outside_region_kept Demo.nav_page [0; 1]
              (Tag "body" []
                 [Tag "nav" [] [Demo.anchor "/guide"];
                  Tag "p" [] [NavigableString "Welcome"]]) eq_refl)
    as (pre & post & H & _).
  exists pre, post. exact H.
Defined.

(** ** The rewriting of references *)

Section ResolveMore.
Context (join : string -> result string).

Lemma get_set_eq (key v x : string) (attrs : list (string * string)) :
  Soup.get key attrs = Some x -> Soup.get key (Soup.set key v attrs) = Some v.
Proof.
  induction attrs as [|[k v0] rest IH]; [discriminate |].
  simpl. destruct (String.eqb k key) eqn:E; simpl; rewrite E; [done |].
  exact IH.
Qed.

Lemma resolve_list_cons (c : node) (l : list node) :
  resolve_list join (c :: l)
  = (call c' := Soup.resolve_node join c in
     call l'' := resolve_list join l in
     Ok (c' :: l'')).
Proof. reflexivity. Qed.

Lemma resolve_tag_href (nm : string) (at_ at' : list (string * string)) :
  Soup.resolve_tag join nm at_ = Ok at' ->
  Forall2 (rewritten join)
    (if String.eqb nm "a"
     then match Soup.get "href" at_ with Some h => [h] | None => [] end
     else [])
    (if String.eqb nm "a"
     then match Soup.get "href" at' with Some h => [h] | None => [] end
     else []).
Proof.
  unfold Soup.resolve_tag. destruct (String.eqb nm "a"); [| constructor].
  destruct (Soup.get "href" at_) as [h|] eqn:Eg.
  - destruct (PyStr.is_empty h) eqn:Ee.
    + intros [= <-]. rewrite Eg. repeat constructor.
      unfold rewritten. now rewrite Ee.
    + destruct (join h) as [v|e] eqn:Ej; [| discriminate].
      simpl. intros [= <-]. rewrite (get_set_eq "href" v h at_ Eg).
      repeat constructor. unfold rewritten. now rewrite Ee.
  - intros [= <-]. rewrite Eg. constructor.
Qed.

Lemma resolve_node_hrefs (n n' : node) :
  Soup.resolve_node join n = Ok n' ->
  Forall2 (rewritten join) (Soup.hrefs_from n) (Soup.hrefs_from n')
  /\ forall ns, Soup.named ns n' = Soup.named ns n.
Proof.
  revert n'. induction n as [s | nm at_ cs IHcs] using node_ind_children;
    intros n'.
  - intros [= <-]. split; [constructor | done].
  - rewrite resolve_node_tag.
    destruct (Soup.resolve_tag join nm at_) as [at'|e] eqn:Et; [| discriminate].
    cbn [bind].
    destruct (resolve_list join cs) as [cs'|e] eqn:El; [| discriminate].
    cbn [bind]. intros [= <-]. split; [| done].
    rewrite !hrefs_from_tag. apply Forall2_app.
    + now apply resolve_tag_href.
    + clear Et. revert cs' El.
      induction IHcs as [|c cs Hc _ IH]; intros cs'.
      * intros [= <-]. constructor.
      * rewrite resolve_list_cons.
        destruct (Soup.resolve_node join c) as [c'|e] eqn:Ec; [| discriminate].
        cbn [bind].
        destruct (resolve_list join cs) as [cs''|e] eqn:El'; [| discriminate].
        cbn [bind]. intros [= <-]. cbn [map concat].
        apply Forall2_app; [now apply Hc | now apply IH].
Qed.

Lemma resolve_list_hrefs (cs cs' : list node) :
  resolve_list join cs = Ok cs' ->
  Forall2 (rewritten join)
    (concat (map Soup.hrefs_from cs)) (concat (map Soup.hrefs_from cs')).
Proof.
  revert cs'. induction cs as [|c cs IH]; intros cs'.
  - intros [= <-]. constructor.
  - rewrite resolve_list_cons.
    destruct (Soup.resolve_node join c) as [c'|e] eqn:Ec; [| discriminate].
    cbn [bind].
    destruct (resolve_list join cs) as [cs''|e] eqn:El'; [| discriminate].
    cbn [bind]. intros [= <-]. cbn [map concat].
    apply Forall2_app; [now apply resolve_node_hrefs | now apply IH].
Qed.

(** With a [join] that never raises, the rewriting never raises. *)
Lemma resolve_node_total (n : node) :
  (forall h, exists v, join h = Ok v) ->
  exists n', Soup.resolve_node join n = Ok n'.
Proof.
  intros Htot. induction n as [s | nm at_ cs IHcs] using node_ind_children.
  - now eexists.
  - rewrite resolve_node_tag.
    assert (Ht : exists at', Soup.resolve_tag join nm at_ = Ok at').
    { unfold Soup.resolve_tag.
      destruct (String.eqb nm "a").
      - destruct (Soup.get "href" at_) as [h|]; [| now eexists].
        destruct (PyStr.is_empty h); [now eexists |].
        destruct (Htot h) as (v & ->). now eexists.
      - destruct (String.eqb nm "img"); [| now eexists].
        destruct (Soup.get "src" at_) as [h|]; [| now eexists].
        destruct (PyStr.is_empty h); [now eexists |].
        destruct (Htot h) as (v & ->). now eexists. }
    destruct Ht as (at' & ->). cbn [bind].
    assert (Hl : exists cs', resolve_list join cs = Ok cs').
    { induction IHcs as [|c cs (c' & Hc) _ (cs' & IH)]; [now eexists |].
      rewrite resolve_list_cons, Hc. cbn [bind]. rewrite IH. now eexists. }
    destruct Hl as (cs' & ->). now eexists.
Qed.

Lemma resolve_list_total (cs : list node) :
  (forall h, exists v, join h = Ok v) ->
  exists cs', resolve_list join cs = Ok cs'.
Proof.
  intros Htot. induction cs as [|c cs (cs' & IH)]; [now eexists |].
  destruct (resolve_node_total c Htot) as (c' & Hc).
  rewrite resolve_list_cons, Hc. cbn [bind]. rewrite IH. now eexists.
Qed.

Lemma resolve_urls_hrefs (region resolved : node) :
  Soup.resolve_urls join region = Ok resolved ->
  Forall2 (rewritten join)
    (Soup.find_all_a_href region) (Soup.find_all_a_href resolved)
  /\ forall ns, Soup.named ns resolved = Soup.named ns region.
Proof.
  destruct region as [s | nm at_ cs].
  - intros [= <-]. split; [constructor | done].
  - rewrite resolve_urls_tag.
    destruct (resolve_list join cs) as [cs'|e] eqn:El; [| discriminate].
    cbn [bind]. intros [= <-]. split; [| done].
    now apply resolve_list_hrefs.
Qed.

End ResolveMore.

(** X6: when the rewriting of a region returns, the region has the same
    tag, and its anchors carry, one for one and in the same order, the
    reference they had when it was empty and its join otherwise; and the
    rewriting returns whenever the join never raises. *)
Theorem resolve_urls_rewrites (join : string -> result string)
    (region : node) :
  (forall resolved, Soup.resolve_urls join region = Ok resolved ->
     Forall2 (rewritten join)
       (Soup.find_all_a_href region) (Soup.find_all_a_href resolved)
     /\ forall ns, Soup.named ns resolved = Soup.named ns region)
  /\ ((forall h, exists v, join h = Ok v) ->
      exists resolved, Soup.resolve_urls join region = Ok resolved).
Proof.
  split.
  - intros resolved. apply resolve_urls_hrefs.
  - intros Htot. destruct region as [s | nm at_ cs]; [now eexists |].
    rewrite resolve_urls_tag.
    destruct (resolve_list_total join cs Htot) as (cs' & ->). now eexists.
Qed.

Lemma resolve_urls_rewrites_witness :
  Forall2 (rewritten (Demo.join Demo.S))
    ["/guide"; ""] ["https://docs.example.com/guide"; ""].
Proof.
  exact (proj1 (proj1 (resolve_urls_rewrites (Demo.join Demo.S)
                         (Tag "body" []
                            [Demo.anchor "/guide";
                             Tag "a" [("href", "")] []]))
                  (Tag "body" []
                     [Tag "a" [("href", "https://docs.example.com/guide")]
                        [NavigableString "/guide"];
                      Tag "a" [("href", "")] []])
                  eq_refl)).
Defined.

(** ** What the link loop reads *)

Lemma named_region_not_anchor (region : node) :
  Soup.named ["main"; "article"; "body"] region = true ->
  Soup.named ["a"] region = false.
Proof.
  destruct region as [s | nm at_ cs]; [reflexivity |].
  cbn [Soup.named existsb]. rewrite !orb_false_r.
  destruct (String.eqb_spec nm "a") as [->|]; [discriminate | reflexivity].
Qed.

Lemma chains_tag (nm : string) (at_ : list (string * string))
    (cs : list node) :
  chains (Tag nm at_ cs)
  = concat (map (fun c => ([], c) :: map (fun e => (c :: e.1, e.2)) (chains c))
              cs).
Proof.
  cbn [chains].
  induction cs as [|c cs IH]; [reflexivity |].
  cbn [map concat]. rewrite <- IH. reflexivity.
Qed.

Lemma chains_descendants (n : node) :
  map snd (chains n) = descendants n.
Proof.
  induction n as [s | nm at_ cs IHcs] using node_ind_children;
    [reflexivity |].
  rewrite chains_tag, descendants_tag.
  induction IHcs as [|c cs Hc _ IH]; [reflexivity |].
  cbn [map concat]. rewrite map_app. cbn [map snd]. rewrite IH.
  rewrite map_map. cbn [snd]. rewrite <- Hc. reflexivity.
Qed.

Lemma hrefs_from_own (n : node) :
  Soup.hrefs_from n = own_href n ++ Soup.find_all_a_href n.
Proof.
  destruct n as [s | nm at_ cs]; [reflexivity |].
  rewrite hrefs_from_tag. reflexivity.
Qed.

Lemma find_all_descendants (n : node) :
  Soup.find_all_a_href n = concat (map own_href (descendants n)).
Proof.
  induction n as [s | nm at_ cs IHcs] using node_ind_children;
    [reflexivity |].
  rewrite descendants_tag. cbn [Soup.find_all_a_href].
  induction IHcs as [|c cs Hc _ IH]; [reflexivity |].
  cbn [map concat]. rewrite map_app, concat_app, <- IH.
  cbn [map concat]. rewrite hrefs_from_own, Hc, <- app_assoc. reflexivity.
Qed.

Lemma own_href_decompose (names : list string) (n : node) :
  own_href (Soup.decompose_all names n) = own_href n.
Proof. destruct n; reflexivity. Qed.

Lemma clear_of_child (names : list string) (c : node) :
  clear_of names ([], c) = negb (Soup.named names c).
Proof. unfold clear_of. cbn [forallb fst snd]. apply andb_true_r. Qed.

Lemma clear_of_below (names : list string) (c : node)
    (e : list node * node) :
  clear_of names (c :: e.1, e.2)
  = negb (Soup.named names c) && clear_of names e.
Proof.
  unfold clear_of. cbn [forallb fst snd].
  now destruct (Soup.named names c), (Soup.named names e.2).
Qed.

Lemma filter_clear_below (names : list string) (c : node)
    (l : list (list node * node)) :
  List.filter (clear_of names) (map (fun e => (c :: e.1, e.2)) l)
  = if Soup.named names c then []
    else map (fun e => (c :: e.1, e.2)) (List.filter (clear_of names) l).
Proof.
  induction l as [|e l IH].
  - now destruct (Soup.named names c).
  - cbn [map List.filter]. rewrite clear_of_below, IH.
    destruct (Soup.named names c); cbn [negb andb]; [reflexivity |].
    now destruct (clear_of names e).
Qed.

Lemma find_all_decompose (names : list string) (n : node) :
  Soup.find_all_a_href (Soup.decompose_all names n) = hrefs_outside names n.
Proof.
  unfold hrefs_outside.
  induction n as [s | nm at_ cs IHcs] using node_ind_children;
    [reflexivity |].
  rewrite decompose_all_tag, chains_tag. cbn [Soup.find_all_a_href].
  induction IHcs as [|c cs Hc _ IH]; [reflexivity |].
  cbn [map concat]. rewrite List.filter_app, map_app, concat_app, <- IH.
  clear IH. cbn [List.filter].
  rewrite clear_of_child, filter_clear_below.
  destruct (Soup.named names c) eqn:En; cbn [negb map concat];
    [reflexivity |].
  rewrite hrefs_from_own, own_href_decompose, Hc, !map_map.
  cbn [fst snd]. rewrite <- !app_assoc. reflexivity.
Qed.

(** X7: for a page that loads and has a region, the references that the
    link loop reads are, in the order of the document: those before the
    region as they are; then those of the anchors below the region that
    are not inside a removed subtree, that is, with no [script], [style],
    [nav] or [footer] among the tags from below the region down to the
    anchor, empty ones as they are and the others joined; then those after
    the region as they are.  The references of the region are those of
    the anchors among its descendants, in document order. *)
Theorem page_hrefs_characterised (w : World) (url content : string)
    (soup : node) (p : path) (region : node)
    (block : option string) (soup' : node) :
  page_content w url = Ok content ->
  BeautifulSoup w content = Ok soup ->
  select_region soup = Some (p, region) ->
  extract w url soup = Ok (block, soup') ->
  Soup.find_all_a_href region = concat (map own_href (descendants region))
  /\ map snd (chains region) = descendants region
  /\ exists pre post hs,
       Soup.find_all_a_href soup = pre ++ Soup.find_all_a_href region ++ post
       /\ Forall2 (rewritten (urljoin w url)) (hrefs_outside noise region) hs
       /\ page_hrefs w url = pre ++ hs ++ post.
Proof.
  intros Hc Hb Hsel Hex.
  split; [apply find_all_descendants |].
  split; [apply chains_descendants |].
  destruct (select_region_path soup p region Hsel) as (Hl & Hn & j & p' & ->).
  destruct (find_all_store j p' soup region Hl) as (pre & post & Hh & Hm).
  pose proof (named_region_not_anchor region Hn) as Hna.
  unfold extract in Hex. rewrite Hsel in Hex.
  destruct (Soup.resolve_urls (urljoin w url)
              (Soup.decompose_all noise region)) as [resolved|e] eqn:Er;
    [| discriminate].
  cbn [bind] in Hex.
  destruct (md w resolved) as [markdown|e] eqn:Emd; [| discriminate].
  cbn [bind] in Hex. injection Hex as <- <-.
  destruct (resolve_urls_hrefs _ _ _ Er) as (Hf2 & Hnames).
  exists pre, post, (Soup.find_all_a_href resolved).
  split_and!.
  - rewrite <- (hrefs_from_not_anchor region Hna). exact Hh.
  - rewrite <- find_all_decompose. exact Hf2.
  - unfold page_hrefs, load. rewrite Hc. cbn [bind]. rewrite Hb. cbn [bind].
    unfold extract. rewrite Hsel, Er. cbn [bind]. rewrite Emd.
    cbn [bind]. destruct (Hm resolved) as (-> & _).
    rewrite (hrefs_from_not_anchor resolved); [done |].
    now rewrite Hnames, named_decompose.
Qed.

Lemma page_hrefs_characterised_witness :
  let region :=
    Tag "main" []
      [Tag "nav" [] [Demo.anchor "/guide"];
       Tag "p" []
         [Demo.anchor "/kept"; Tag "footer" [] [Demo.anchor "/low"]];
       Tag "a" [("href", "")] []] in
  hrefs_outside noise region = ["/kept"; ""]
  /\ page_hrefs (Demo.world Demo.mixed_site) Demo.S
     = ["/before"; "https://docs.example.com/kept"; ""; "/after"]
  /\ exists pre post hs,
       Soup.find_all_a_href Demo.mixed_page
       = pre ++ Soup.find_all_a_href region ++ post
       /\ Forall2 (rewritten (Demo.join Demo.S)) ["/kept"; ""] hs
       /\ page_hrefs (Demo.world Demo.mixed_site) Demo.S = pre ++ hs ++ post.
Proof.
  intros region. split; [reflexivity |]. split; [reflexivity |].
  exact (proj2 (proj2 (page_hrefs_characterised (Demo.world Demo.mixed_site)
                         Demo.S Demo.S Demo.mixed_page [0; 1; 1] region
                         _ _ eq_refl eq_refl eq_refl eq_refl))).
Defined.

(** ** Exceptions inside a page *)

(** Hypotheses that say how a call went, taken apart and set against one
    another. *)
Ltac clash :=
  repeat match goal with
  | H : _ \/ _ |- _ => destruct H
  | H : _ /\ _ |- _ => destruct H
  | H : ex _ |- _ => destruct H
  | H : Ok _ = Raise _ |- _ => discriminate H
  | H : Raise _ = Ok _ |- _ => discriminate H
  | H : None = Some _ |- _ => discriminate H
  | H : Some _ = None |- _ => discriminate H
  | H : Ok _ = Ok _ |- _ => injection H as H; subst
  | H : Raise _ = Raise _ |- _ => injection H as H; subst
  | H : Some (_, _) = Some (_, _) |- _ => injection H as H H'; subst
  | H1 : ?t = _, H2 : ?t = _ |- _ => rewrite H1 in H2
  end.

Section Exceptions.
Context (w : World).

Lemma find_links_app (url : string) (l1 l2 : list string) (self : Scraper) :
  find_links w url (l1 ++ l2) self
  = match find_links w url l1 self with
    | (s1, Ok _) => find_links w url l2 s1
    | (s1, Raise e) => (s1, Raise e)
    end.
Proof.
  revert self. induction l1 as [|h l1 IH]; intros self; [reflexivity |].
  cbn [app find_links].
  destruct (urljoin w url h) as [full|e]; [| reflexivity].
  destruct (is_valid_url w self full) as [valid|e]; [| reflexivity].
  destruct (valid && _ && _); apply IH.
Qed.

Lemma is_valid_url_raises (self : Scraper) (url e : string) :
  is_valid_url w self url = Raise e <-> urlparse w url = Raise e.
Proof.
  unfold is_valid_url. destruct (urlparse w url) as [parsed|e']; cbn [bind].
  - split; [| discriminate].
    destruct (negb (String.eqb (netloc parsed) (base_domain self)));
      [discriminate |].
    destruct (negb (PyStr.startswith (start_url self) url)); discriminate.
  - split; intros [= ->]; reflexivity.
Qed.

Lemma load_raises (url e : string) :
  load w url = Raise e <->
  page_content w url = Raise e
  \/ (exists content, page_content w url = Ok content
        /\ (BeautifulSoup w content = Raise e
            \/ exists soup p region,
                 BeautifulSoup w content = Ok soup
                 /\ select_region soup = Some (p, region)
                 /\ (Soup.resolve_urls (urljoin w url)
                       (Soup.decompose_all noise region) = Raise e
                     \/ exists resolved,
                          Soup.resolve_urls (urljoin w url)
                            (Soup.decompose_all noise region) = Ok resolved
                          /\ md w resolved = Raise e))).
Proof.
  unfold load, extract.
  destruct (page_content w url) as [content|e0] eqn:Ec; cbn [bind].
  2:{ split; intros H; clash; eauto. }
  destruct (BeautifulSoup w content) as [soup|e0] eqn:Eb; cbn [bind].
  2:{ split; intros H; clash; eauto 8. }
  destruct (select_region soup) as [[p region]|] eqn:Es.
  2:{ split; intros H; clash. }
  destruct (Soup.resolve_urls (urljoin w url)
              (Soup.decompose_all noise region)) as [resolved|e0] eqn:Er;
    cbn [bind].
  2:{ split; intros H; clash; eauto 12. }
  destruct (md w resolved) as [markdown|e0] eqn:Em; cbn [bind].
  - split; intros H; clash.
  - split; intros H; clash; eauto 15.
Qed.

End Exceptions.

(** X8: the link loop over a list of references is the loop over its
    first part followed, if that part raised nothing, by the loop over the
    rest from the state reached.  Hence a reference that does not join, or
    whose join does not parse, ends the loop: what was pushed before it
    stays pushed, and the references after it are never looked at. *)
Theorem link_loop_stops_at_exception (w : World) (url : string) :
  (forall l1 l2 self,
     find_links w url (l1 ++ l2) self
     = match find_links w url l1 self with
       | (s1, Ok _) => find_links w url l2 s1
       | (s1, Raise e) => (s1, Raise e)
       end)
  /\ (forall before h after self s1 e,
        find_links w url before self = (s1, Ok tt) ->
        urljoin w url h = Raise e ->
        find_links w url (before ++ h :: after) self = (s1, Raise e))
  /\ (forall before h after self s1 full e,
        find_links w url before self = (s1, Ok tt) ->
        urljoin w url h = Ok full ->
        urlparse w full = Raise e ->
        find_links w url (before ++ h :: after) self = (s1, Raise e)).
Proof.
  split_and!.
  - apply find_links_app.
  - intros before h after self s1 e Hb Hj.
    rewrite find_links_app, Hb. cbn [find_links]. now rewrite Hj.
  - intros before h after self s1 full e Hb Hj Hp.
    rewrite find_links_app, Hb. cbn [find_links]. rewrite Hj.
    apply (is_valid_url_raises w s1) in Hp. now rewrite Hp.
Qed.

Lemma link_loop_stops_at_exception_witness :
  let w := Flaky.world Flaky.site Flaky.bad false in
  find_links w Demo.S [Demo.A; Flaky.bad; Demo.B] Demo.seed
  = (push (normalize_url Demo.A) Demo.A Demo.seed, Raise "Invalid IPv6 URL").
Proof.
  intros w.
  destruct (link_loop_stops_at_exception w Demo.S) as (_ & H & _).
  exact (H [Demo.A] Flaky.bad [Demo.B] Demo.seed _ _ eq_refl eq_refl).
Defined.

(** The loop ends at its head exactly when the queue is empty. *)
Lemma turn_ends (w : World) (c : Crawl) :
  turn_of w c = LoopEnds <-> queue (self_of c) = [].
Proof.
  unfold turn_of, take. destruct (queue (self_of c)) as [|url q]; [done |].
  cbn zeta. case_bool_decide; [split; discriminate |].
  destruct (escapes w url _); split; discriminate.
Qed.

(** X9: when the browser, the parser, the join of a reference of the
    region or the converter raises [e], the turn appends no block, pushes
    no link and leaves the key of the page in [visited].  What comes next
    is decided by the print of the handler.  When it returns, one error
    line is printed and the loop goes on with the rest of the queue.  When
    it raises, no line is printed and its exception leaves the loop: the
    rest of the queue stays where it is. *)
Theorem page_failure_contained (w : World) (c : Crawl)
    (url : string) (q : list string) (e : string) :
  queue (self_of c) = url :: q ->
  normalize_url url ∉ visited (self_of c) ->
  page_content w url = Raise e
  \/ (exists content, page_content w url = Ok content
        /\ (BeautifulSoup w content = Raise e
            \/ exists soup p region,
                 BeautifulSoup w content = Ok soup
                 /\ select_region soup = Some (p, region)
                 /\ (Soup.resolve_urls (urljoin w url)
                       (Soup.decompose_all noise region) = Raise e
                     \/ exists resolved,
                          Soup.resolve_urls (urljoin w url)
                            (Soup.decompose_all noise region) = Ok resolved
                          /\ md w resolved = Raise e))) ->
  exists c',
    markdown_content (self_of c') = markdown_content (self_of c)
    /\ queue (self_of c') = q
    /\ seen_urls (self_of c') = seen_urls (self_of c)
    /\ visited (self_of c') = {[ normalize_url url ]} ∪ visited (self_of c)
    /\ described c' = described c ++ [url]
    /\ match console_print w (error_line url e) with
       | Ok _ =>
           turn_of w c = Goes c'
           /\ iteration w c = Some c'
           /\ printed c' = printed c ++ [error_line url e]
           /\ (q <> [] -> turn_of w c' <> LoopEnds)
       | Raise e' =>
           turn_of w c = Escapes e' c'
           /\ iteration w c = None
           /\ printed c' = printed c
           /\ (forall fuel,
                 while_loop w (S fuel) c = Some (Escaped e' c')
                 /\ crawl_loop w (S fuel) c = None)
       end.
Proof.
  intros Hq Hv He. apply load_raises in He.
  assert (Ht : try_body w url
                 (visited_add (normalize_url url) (set_queue q (self_of c)))
               = (visited_add (normalize_url url) (set_queue q (self_of c)),
                  Raise e)).
  { unfold try_body. now rewrite He. }
  assert (Htake : take c
                  = Some (InTry url,
                          {| self_of := visited_add (normalize_url url)
                                          (set_queue q (self_of c));
                             described := described c ++ [url];
                             printed := printed c |})).
  { unfold take. rewrite Hq. cbn zeta.
    now rewrite bool_decide_eq_false_2 by exact Hv. }
  set (c1 := {| self_of := visited_add (normalize_url url)
                              (set_queue q (self_of c));
                 described := described c ++ [url];
                 printed := printed c |}) in *.
  exists (attempt w url c1).
  unfold crawl_loop, iteration. cbn [while_loop]. unfold turn_of.
  rewrite Htake. unfold escapes, attempt, try_except. cbn [self_of c1].
  rewrite Ht. cbn [described printed].
  destruct (console_print w (error_line url e)) as [[]|e'];
    cbn [fst snd self_of described printed].
  - split_and!; try reflexivity.
    intros Hne Hends. apply turn_ends in Hends. done.
  - split_and!; try reflexivity.
    intros fuel. split; reflexivity.
Qed.

Lemma page_failure_contained_witness :
  let w := Markup.world Markup.site in
  let c := run w 1 (start Demo.seed) in
  exists c',
    turn_of w c
    = Escapes "closing tag '[/y]' at position 46 doesn't match any open tag"
        c'
    /\ queue (self_of c') = [Demo.A]
    /\ markdown_content (self_of c') = markdown_content (self_of c)
    /\ printed c' = printed c.
Proof.
  intros w c.
  destruct (page_failure_contained w c Markup.X [Demo.A]
              "net::ERR_NAME_NOT_RESOLVED" eq_refl)
    as (c' & H1 & H2 & _ & _ & _ & H6).
  - apply (bool_decide_unpack _). vm_compute. exact I.
  - left. reflexivity.
  - exists c'. destruct H6 as (H6 & _ & H8 & _).
    split; [exact H6 |]. split; [exact H2 |]. split; [exact H1 | exact H8].
Defined.

(** ** The frontier in a run from the constructor *)

Section FrontierMore.
Context (w : World).

Lemma init_fields (seed_url out : string) (self : Scraper) :
  init w seed_url out = Ok self ->
  start_url self = seed_url /\ output_file self = out
  /\ visited self = ∅ /\ seen_urls self = {[ normalize_url seed_url ]}
  /\ queue self = [seed_url] /\ markdown_content self = [].
Proof.
  unfold init. destruct (urlparse w seed_url) as [ps|e]; [| done].
  cbn [bind]. now intros [= <-].
Qed.

Lemma run_frontier_ok (seed_url out : string) (self : Scraper) (n : nat) :
  init w seed_url out = Ok self -> frontier_ok (run w n (start self)).
Proof.
  intros Hinit.
  destruct (init_frontier_ok w seed_url out self Hinit) as (_ & Hok & Hpar).
  now destruct (run_ok w seed_url n (start self) Hok Hpar) as (? & _).
Qed.

(** [seen_urls] holds the keys of the URLs processed or waiting, and no
    others. *)
Lemma run_seen_exact (seed_url out : string) (self : Scraper) (n : nat) :
  init w seed_url out = Ok self ->
  seen_urls (self_of (run w n (start self)))
  = list_to_set (map normalize_url (frontier_order (run w n (start self)))).
Proof.
  intros Hinit.
  destruct (init_frontier_ok w seed_url out self Hinit) as (_ & Hok & _).
  assert (H0 : seen_urls (self_of (start self))
               = list_to_set (map normalize_url (frontier_order (start self)))).
  { destruct (init_fields _ _ _ Hinit) as (_ & _ & _ & Hs & Hq & _).
    unfold frontier_order. simpl. rewrite Hs, Hq. simpl. set_solver. }
  revert Hok H0. generalize (start self) as c.
  induction n as [|n IH]; intros c Hok H0; simpl; [exact H0 |].
  destruct (iteration w c) as [c'|] eqn:Hit; [| exact H0].
  destruct (iteration_ok w c c' Hok Hit)
    as (url & q & new & Hq & Hd & Hq' & Hadd & Hok').
  apply (IH c' Hok').
  destruct Hadd as (_ & Hs' & _).
  rewrite Hs'. simpl. rewrite H0. unfold frontier_order.
  rewrite Hd, Hq', Hq, !map_app. simpl. set_solver.
Qed.

Lemma run_visited_exact (seed_url out : string) (self : Scraper) (n : nat) :
  init w seed_url out = Ok self ->
  visited (self_of (run w n (start self)))
  = list_to_set (map normalize_url (described (run w n (start self))))
  /\ NoDup (map normalize_url (described (run w n (start self)))).
Proof.
  intros Hinit.
  destruct (init_fields _ _ _ Hinit) as (_ & _ & Hv & _).
  destruct (run_described w n (start self)) as (later & Hd & Hnd & _ & Hvis).
  simpl in Hd, Hvis. rewrite Hd, Hvis, Hv. split; [set_solver | done].
Qed.

End FrontierMore.

(** X10: in a run that began with the constructor, at every turn:
    [visited] is a part of [seen_urls]; the URLs that wait have keys that
    are seen, not visited, and pairwise different; [seen_urls] is exactly
    the set of the keys of the URLs processed or waiting; so the visited
    check at the head of the loop never drops a URL, and the number of
    visited keys is the number of URLs taken for processing. *)
Theorem frontier_invariants (w : World) (seed_url out : string)
    (self : Scraper) (n : nat) :
  init w seed_url out = Ok self ->
  let c := run w n (start self) in
  visited (self_of c) ⊆ seen_urls (self_of c)
  /\ (forall u, u ∈ queue (self_of c) ->
        normalize_url u ∈ seen_urls (self_of c)
        /\ normalize_url u ∉ visited (self_of c))
  /\ NoDup (map normalize_url (queue (self_of c)))
  /\ seen_urls (self_of c)
     = list_to_set (map normalize_url (described c ++ queue (self_of c)))
  /\ visited (self_of c) = list_to_set (map normalize_url (described c))
  /\ (forall c', take c <> Some (AtLoopHead, c'))
  /\ size (visited (self_of c)) = length (described c).
Proof.
  intros Hinit c.
  pose proof (run_frontier_ok w seed_url out self n Hinit) as (Hnd & Hseen & Hvis).
  pose proof (run_seen_exact w seed_url out self n Hinit) as Hse.
  pose proof (run_visited_exact w seed_url out self n Hinit) as (Hve & Hndd).
  fold c in Hnd, Hseen, Hvis, Hse, Hve, Hndd.
  unfold frontier_order in *. rewrite map_app in Hnd.
  apply NoDup_app in Hnd as (_ & Hdis & Hndq).
  assert (Hq : forall u, u ∈ queue (self_of c) ->
                 normalize_url u ∉ visited (self_of c)).
  { intros u Hu Hv. apply (Hdis _ (Hvis _ Hv)).
    apply list_elem_of_fmap. now exists u. }
  split_and!.
  - intros k Hk. specialize (Hvis k Hk).
    apply list_elem_of_fmap in Hvis as (u & -> & Hu).
    apply Hseen. apply elem_of_app. now left.
  - intros u Hu. split; [| now apply Hq].
    apply Hseen. apply elem_of_app. now right.
  - exact Hndq.
  - exact Hse.
  - exact Hve.
  - intros c'. unfold take.
    destruct (queue (self_of c)) as [|url q] eqn:Eq; [discriminate |].
    simpl. rewrite bool_decide_eq_false_2; [discriminate |].
    apply Hq. left.
  - rewrite Hve. rewrite size_list_to_set by exact Hndd.
    apply length_map.
Qed.

Lemma frontier_invariants_witness :
  let c := run (Demo.world Demo.dup_site) 1 (start Demo.seed) in
  visited (self_of c) ⊆ seen_urls (self_of c)
  /\ size (visited (self_of c)) = length (described c).
Proof.
  intros c.
  destruct (frontier_invariants (Demo.world Demo.dup_site) Demo.S "docs.md"
              Demo.seed 1 eq_refl) as (H1 & _ & _ & _ & _ & _ & H7).
  split; [exact H1 | exact H7].
Defined.

(** ** What enters the queue, and what comes out of a run *)

Section OutputMore.
Context (w : World).

Lemma is_valid_url_true (self : Scraper) (u : string) :
  is_valid_url w self u = Ok true ->
  exists pc, urlparse w u = Ok pc /\ netloc pc = base_domain self.
Proof.
  unfold is_valid_url. destruct (urlparse w u) as [pc|e]; [| discriminate].
  cbn [bind]. destruct (String.eqb_spec (netloc pc) (base_domain self)).
  - intros _. now exists pc.
  - discriminate.
Qed.

Lemma run_in_scope (seed_url out : string) (self : Scraper) (n : nat) (u : string) :
  init w seed_url out = Ok self ->
  u ∈ frontier_order (run w n (start self)) ->
  u = seed_url \/ is_valid_url w self u = Ok true.
Proof.
  intros Hinit.
  destruct (init_frontier_ok w seed_url out self Hinit) as (_ & Hok & _).
  destruct (init_fields w _ _ _ Hinit) as (_ & _ & _ & _ & Hq0 & _).
  assert (H0 : forall v, v ∈ frontier_order (start self) ->
                 v = seed_url \/ is_valid_url w self v = Ok true).
  { unfold frontier_order. simpl. rewrite Hq0.
    intros v ->%list_elem_of_singleton. now left. }
  assert (Hst : base_domain (self_of (start self)) = base_domain self
                /\ start_url (self_of (start self)) = start_url self) by done.
  revert Hok H0 Hst. generalize (start self) as c.
  induction n as [|n IH]; intros c Hok H0 (Hb & Hs); simpl; [apply H0 |].
  destruct (iteration w c) as [c'|] eqn:Hit; [| apply H0].
  destruct (iteration_ok w c c' Hok Hit)
    as (url & q & new & Hq & Hd & Hq' & Hadd & Hok').
  destruct (run_static w 1 c) as (Hb1 & Hs1). simpl in Hb1, Hs1.
  rewrite Hit in Hb1, Hs1.
  apply (IH c' Hok'); [| split; congruence].
  intros v. unfold frontier_order. rewrite Hd, Hq', <- !app_assoc.
  intros Hv.
  assert (Hcases : v ∈ frontier_order c \/ v ∈ new).
  { unfold frontier_order. rewrite Hq.
    apply elem_of_app in Hv as [Hv|Hv]; [left; set_solver |].
    apply elem_of_app in Hv as [Hv|Hv]; [left; set_solver |].
    apply elem_of_app in Hv as [Hv|Hv]; [left; set_solver | now right]. }
  destruct Hcases as [Hv'|Hv']; [now apply H0 |].
  right. destruct Hadd as (_ & _ & _ & Hall & _).
  destruct (Hall v Hv') as (_ & _ & Hvalid).
  rewrite <- Hvalid. now apply is_valid_url_static.
Qed.

(** The block that a page adds, if any, is the one its loading gives. *)
Lemma attempt_markdown (url : string) (c : Crawl) :
  markdown_content (self_of (attempt w url c))
  = markdown_content (self_of c) ++ omap (block_of w) [url].
Proof.
  rewrite attempt_self. unfold try_body. cbn [omap list_omap].
  unfold block_of.
  destruct (load w url) as [[block soup]|e]; simpl.
  - destruct (find_links_frame w url (Soup.find_all_a_href soup)
                (match block with
                 | Some b => markdown_append b (self_of c)
                 | None => self_of c
                 end)) as (_ & Hm & _).
    rewrite Hm. destruct block; simpl; [done | now rewrite app_nil_r].
  - now rewrite app_nil_r.
Qed.

(** Whether the link loop raises does not depend on what was seen. *)
Lemma find_links_outcome (url : string) (hrefs : list string)
    (self self' : Scraper) :
  base_domain self' = base_domain self -> start_url self' = start_url self ->
  (find_links w url hrefs self').2 = (find_links w url hrefs self).2.
Proof.
  revert self self'. induction hrefs as [|h rest IH]; intros self self' Hb Hs;
    [reflexivity |].
  cbn [find_links].
  destruct (urljoin w url h) as [full|e]; [| reflexivity].
  rewrite (is_valid_url_static w self self' full Hb Hs).
  destruct (is_valid_url w self full) as [valid|e]; [| reflexivity].
  destruct (valid && bool_decide (normalize_url full ∉ visited self')
            && bool_decide (normalize_url full ∉ seen_urls self'));
    destruct (valid && bool_decide (normalize_url full ∉ visited self)
              && bool_decide (normalize_url full ∉ seen_urls self));
    apply IH; done.
Qed.

Lemma try_body_outcome (url : string) (self self' : Scraper) :
  base_domain self' = base_domain self -> start_url self' = start_url self ->
  (try_body w url self').2 = (try_body w url self).2.
Proof.
  intros Hb Hs. unfold try_body.
  destruct (load w url) as [[block soup]|e]; [| reflexivity].
  apply find_links_outcome; destruct block; done.
Qed.

Lemma attempt_printed (url : string) (c : Crawl) :
  escapes w url c = None ->
  printed (attempt w url c)
  = printed c ++ omap (error_of w (self_of c)) [url].
Proof.
  unfold escapes, attempt, try_except. cbn [omap list_omap]. unfold error_of.
  destruct (try_body w url (self_of c)) as [self' [[]|e]]; cbn [fst snd].
  - intros _. cbn. now rewrite app_nil_r.
  - now destruct (console_print w (error_line url e)).
Qed.

(** When an exception leaves the handler, the [try] had raised and the
    print of its line raised in turn: nothing was printed. *)
Lemma attempt_escaped (url : string) (c : Crawl) (e' : string) :
  escapes w url c = Some e' ->
  printed (attempt w url c) = printed c
  /\ exists e, (try_body w url (self_of c)).2 = Raise e
               /\ console_print w (error_line url e) = Raise e'.
Proof.
  unfold escapes, attempt, try_except.
  destruct (try_body w url (self_of c)) as [self' [[]|e]]; cbn [fst snd];
    [discriminate |].
  destruct (console_print w (error_line url e)) as [[]|e0] eqn:Ep;
    cbn [fst snd]; [discriminate |].
  intros [= ->]. split; [reflexivity |]. now exists e.
Qed.

Lemma error_of_static (url : string) (self self' : Scraper) :
  base_domain self' = base_domain self -> start_url self' = start_url self ->
  error_of w self' url = error_of w self url.
Proof.
  intros Hb Hs. unfold error_of. now rewrite (try_body_outcome url self self').
Qed.

Lemma omap_same {A B} (f g : A -> option B) (l : list A) :
  (forall x, f x = g x) -> omap f l = omap g l.
Proof.
  intros H. induction l as [|x l IH]; [reflexivity |].
  cbn [omap list_omap]. rewrite H. destruct (g x); [f_equal |]; exact IH.
Qed.

Lemma run_output (n : nat) (c : Crawl) :
  exists later,
    described (run w n c) = described c ++ later
    /\ markdown_content (self_of (run w n c))
       = markdown_content (self_of c) ++ omap (block_of w) later
    /\ printed (run w n c)
       = printed c ++ omap (error_of w (self_of c)) later.
Proof.
  revert c. induction n as [|n IH]; intros c; simpl.
  - exists []. simpl. now rewrite !app_nil_r.
  - destruct (iteration_cases w c) as [[_ Hit] | [(url & q & _ & _ & Hit) |
                                                 (url & q & Hq & Hv & Hit)]];
      rewrite Hit.
    + exists []. simpl. now rewrite !app_nil_r.
    + destruct (IH {| self_of := set_queue q (self_of c);
                      described := described c; printed := printed c |})
        as (later & Hd & Hm & Hp).
      exists later. simpl in *. split_and!; [done | done |].
      rewrite Hp. f_equal. apply omap_same.
      intros u. now apply error_of_static.
    + pose proof (iteration_goes w c _ url q Hq Hv Hit) as Hnone.
      set (c1 := {| self_of := visited_add (normalize_url url)
                                 (set_queue q (self_of c));
                    described := described c ++ [url];
                    printed := printed c |}) in *.
      destruct (IH (attempt w url c1)) as (later & Hd & Hm & Hp).
      exists (url :: later).
      rewrite Hd, Hm, Hp, attempt_described, attempt_markdown,
        (attempt_printed url c1 Hnone).
      simpl. rewrite <- !app_assoc.
      assert (He : forall u, error_of w (self_of (attempt w url c1)) u
                             = error_of w (self_of c) u).
      { intros u. apply error_of_static.
        - rewrite attempt_self.
          now destruct (try_body_frame w url (self_of c1)) as (_ & _ & ->).
        - rewrite attempt_self.
          now destruct (try_body_frame w url (self_of c1)) as (_ & -> & _). }
      assert (He1 : error_of w (visited_add (normalize_url url)
                                  (set_queue q (self_of c))) url
                    = error_of w (self_of c) url)
        by (now apply error_of_static).
      rewrite He1. split_and!; [done | | ].
      * f_equal. now destruct (block_of w url).
      * f_equal. rewrite (omap_same _ (error_of w (self_of c)) later He).
        now destruct (error_of w (self_of c) url).
Qed.

End OutputMore.

Lemma omap_length_le {A B} (f : A -> option B) (l : list A) :
  length (omap f l) <= length l.
Proof.
  induction l as [|x l IH]; [reflexivity |].
  cbn [omap list_omap]. destruct (f x); simpl; lia.
Qed.

Section Leaving.
Context (w : World).

(** When an exception leaves a turn, a URL had been taken and its attempt
    made. *)
Lemma turn_escapes (c c' : Crawl) (e : string) :
  turn_of w c = Escapes e c' ->
  exists url q,
    queue (self_of c) = url :: q
    /\ (normalize_url url ∉ visited (self_of c))
    /\ c' = attempt w url
              {| self_of := visited_add (normalize_url url)
                              (set_queue q (self_of c));
                 described := described c ++ [url];
                 printed := printed c |}
    /\ escapes w url
         {| self_of := visited_add (normalize_url url)
                         (set_queue q (self_of c));
            described := described c ++ [url];
            printed := printed c |} = Some e.
Proof.
  unfold turn_of, take.
  destruct (queue (self_of c)) as [|url q]; [discriminate |].
  cbn zeta. case_bool_decide as Hv; [discriminate |].
  destruct (escapes w url _) as [e0|] eqn:Ee; [| discriminate].
  intros [= <- <-]. now exists url, q.
Qed.

Lemma while_loop_ended (fuel : nat) (c c' : Crawl) :
  while_loop w fuel c = Some (Ended c') ->
  c' = run w fuel c /\ queue (self_of c') = [].
Proof.
  revert c. induction fuel as [|fuel IH]; intros c; [discriminate |].
  cbn [while_loop run]. unfold iteration.
  destruct (turn_of w c) as [|c1|e c1] eqn:Ht.
  - intros [= <-]. split; [reflexivity |]. now apply turn_ends in Ht.
  - apply IH.
  - discriminate.
Qed.

Lemma crawl_loop_run (fuel : nat) (c c' : Crawl) :
  crawl_loop w fuel c = Some c' ->
  c' = run w fuel c /\ queue (self_of c') = [].
Proof.
  unfold crawl_loop.
  destruct (while_loop w fuel c) as [[c1|e c1]|] eqn:Hl; try discriminate.
  intros [= <-]. exact (while_loop_ended fuel c c1 Hl).
Qed.

(** An exception leaves the loop in the turn that follows some number of
    turns that were done. *)
Lemma while_loop_escaped (fuel : nat) (c c' : Crawl) (e : string) :
  while_loop w fuel c = Some (Escaped e c') ->
  exists n, n < fuel /\ turn_of w (run w n c) = Escapes e c'.
Proof.
  revert c. induction fuel as [|fuel IH]; intros c; [discriminate |].
  cbn [while_loop].
  destruct (turn_of w c) as [|c1|e1 c1] eqn:Ht.
  - discriminate.
  - intros Hl. destruct (IH c1 Hl) as (n & Hn & Hturn).
    exists (S n). split; [lia |]. cbn [run]. unfold iteration.
    now rewrite Ht.
  - intros [= <- <-]. exists 0. split; [lia | exact Ht].
Qed.

(** With a console that takes every line, nothing leaves the handler. *)
Lemma escapes_quiet (url : string) (c : Crawl) :
  (forall line, console_print w line = Ok tt) -> escapes w url c = None.
Proof.
  intros Hprint. unfold escapes, try_except.
  destruct (try_body w url (self_of c)) as [self' [[]|e]]; [reflexivity |].
  now rewrite Hprint.
Qed.

Lemma try_body_output_file (url : string) (self : Scraper) :
  output_file (try_body w url self).1 = output_file self.
Proof.
  unfold try_body.
  destruct (load w url) as [[block soup]|e]; simpl; [| done].
  destruct (find_links_frame w url (Soup.find_all_a_href soup)
              (match block with
               | Some b => markdown_append b self
               | None => self
               end)) as (_ & _ & _ & Ho & _).
  rewrite Ho. now destruct block.
Qed.

Lemma run_output_file (n : nat) (c : Crawl) :
  output_file (self_of (run w n c)) = output_file (self_of c).
Proof.
  revert c. induction n as [|n IH]; intros c; simpl; [done |].
  destruct (iteration_cases w c) as [[_ ->] | [(url & q & _ & _ & ->) |
                                              (url & q & _ & _ & ->)]];
    [done | |].
  { apply (IH {| self_of := set_queue q (self_of c);
                 described := described c; printed := printed c |}). }
  rewrite IH, attempt_self. now rewrite try_body_output_file.
Qed.

(** What [finish] did when it returned. *)
Lemma finish_ok (c : Crawl) (f : Finished) :
  finish w c = Ok f ->
  final f = {| self_of := self_of c; described := described c;
               printed := printed c
                 ++ [complete_line (self_of c); total_line (self_of c)] |}
  /\ written f = join_lines (markdown_content (self_of c))
  /\ write_output w (output_file (self_of c)) (written f) = Ok tt.
Proof.
  unfold finish.
  destruct (progress_exit w (described c)) as [[]|e0];
    [| destruct (playwright_exit w); discriminate].
  destruct (browser_close w) as [[]|e0];
    [| destruct (playwright_exit w); discriminate].
  destruct (playwright_exit w) as [[]|e0]; cbn [bind]; [| discriminate].
  destruct (write_output w _ _) as [[]|e0] eqn:Ew; cbn [bind];
    [| discriminate].
  destruct (console_print w (complete_line _)) as [[]|e0]; cbn [bind];
    [| discriminate].
  destruct (console_print w (total_line _)) as [[]|e0]; cbn [bind];
    [| discriminate].
  intros [= <-]. cbn [final written]. done.
Qed.

Lemma crawl_ok (fuel : nat) (self : Scraper) (f : Finished) :
  crawl w fuel self = Some (Ok f) ->
  exists c, while_loop w fuel (start self) = Some (Ended c)
            /\ finish w c = Ok f.
Proof.
  unfold crawl. destruct (launch w) as [[]|e0]; [| discriminate].
  destruct (while_loop w fuel (start self)) as [[c|e c]|]; try discriminate.
  intros [= H]. now exists c.
Qed.

End Leaving.

(** X11: in a run that began with the constructor, every URL that was
    processed or waits in the queue parses, and its network location is
    that of the seed: a link to another host never enters the queue. *)
Theorem only_same_host_queued (w : World) (seed_url out : string)
    (self : Scraper) (n : nat) (u : string) :
  init w seed_url out = Ok self ->
  u ∈ described (run w n (start self))
        ++ queue (self_of (run w n (start self))) ->
  exists pc, urlparse w u = Ok pc /\ netloc pc = base_domain self.
Proof.
  intros Hinit Hu.
  destruct (run_in_scope w seed_url out self n u Hinit Hu) as [->|Hv].
  - unfold init in Hinit.
    destruct (urlparse w seed_url) as [ps|e]; [| discriminate].
    cbn [bind] in Hinit. injection Hinit as <-. now exists ps.
  - now apply is_valid_url_true.
Qed.

Lemma only_same_host_queued_witness :
  exists pc, urlparse (Demo.world Demo.bfs_site) Demo.C = Ok pc
             /\ netloc pc = base_domain Demo.seed.
Proof.
  apply (only_same_host_queued (Demo.world Demo.bfs_site) Demo.S "docs.md"
           Demo.seed 3 Demo.C eq_refl).
  apply (bool_decide_unpack _). vm_compute. exact I.
Defined.

(** X12: after any number of turns, the blocks of [markdown_content] are
    those of the pages taken for processing, in the order in which they
    were taken, one for each page that loaded with a region and none for
    the others; the error lines printed are, in the same order, one for
    each page whose [try] raised.  When [crawl] returns, the text it wrote
    is these blocks joined by newlines, the writing raised nothing, and
    the lines printed are the error lines and the two closing lines.  When
    an exception leaves the loop, [crawl] raises and returns nothing; the
    page taken last is one whose [try] raised and whose error line was not
    printed, and the blocks and the lines before it are as said. *)
Theorem output_in_processing_order (w : World) (self : Scraper) (n : nat) :
  let c := run w n (start self) in
  markdown_content (self_of c)
  = markdown_content self ++ omap (block_of w) (described c)
  /\ printed c = omap (error_of w self) (described c)
  /\ length (markdown_content (self_of c))
     <= length (markdown_content self) + length (described c)
  /\ length (printed c) <= length (described c)
  /\ (forall fuel f, crawl w fuel self = Some (Ok f) ->
        written f
        = join_lines (markdown_content self
                        ++ omap (block_of w) (described (final f)))
        /\ write_output w (output_file self) (written f) = Ok tt
        /\ printed (final f)
           = omap (error_of w self) (described (final f))
               ++ [complete_line (self_of (final f));
                   total_line (self_of (final f))])
  /\ (forall fuel e c', while_loop w fuel (start self) = Some (Escaped e c') ->
        (exists e', crawl w fuel self = Some (Raise e'))
        /\ exists before url,
             described c' = before ++ [url]
             /\ printed c' = omap (error_of w self) before
             /\ error_of w self url <> None
             /\ markdown_content (self_of c')
                = markdown_content self ++ omap (block_of w) (described c')).
Proof.
  cbv zeta.
  destruct (run_output w n (start self)) as (later & Hd & Hm & Hp).
  simpl in Hd, Hm, Hp. rewrite Hd, Hm, Hp.
  split_and!; [done | done | | | |].
  - rewrite length_app. pose proof (omap_length_le (block_of w) later). lia.
  - apply omap_length_le.
  - intros fuel f Hc.
    destruct (crawl_ok w fuel self f Hc) as (c & Hl & Hf).
    destruct (while_loop_ended w fuel _ _ Hl) as (-> & _).
    destruct (finish_ok w _ f Hf) as (Hfin & Hw & Hwr).
    rewrite run_output_file in Hwr. cbn [start self_of] in Hwr.
    destruct (run_output w fuel (start self)) as (later' & Hd' & Hm' & Hp').
    simpl in Hd', Hm', Hp'.
    rewrite Hfin. cbn [self_of described printed].
    rewrite Hd', Hp'. split_and!; [| exact Hwr | reflexivity].
    now rewrite Hw, Hm'.
  - intros fuel e c' Hl. split.
    { unfold crawl. destruct (launch w) as [[]|e0]; [| now eexists].
      rewrite Hl. now eexists. }
    destruct (while_loop_escaped w fuel _ _ e Hl) as (k & _ & Hturn).
    destruct (turn_escapes w _ _ e Hturn) as (url & q & Hq & Hv & -> & Hesc).
    set (ck := run w k (start self)) in *.
    destruct (run_output w k (start self)) as (before & Hd' & Hm' & Hp').
    fold ck in Hd', Hm', Hp'. simpl in Hd', Hm', Hp'.
    destruct (run_static w k (start self)) as (Hb & Hs).
    fold ck in Hb, Hs. simpl in Hb, Hs.
    destruct (attempt_escaped w url _ e Hesc) as (Hpr & e0 & Htry & _).
    cbn [self_of printed] in Hpr, Htry.
    exists before, url.
    rewrite attempt_described, Hpr, attempt_markdown.
    cbn [described self_of markdown_content visited_add set_queue].
    rewrite Hd', Hp', Hm'. split_and!; [done | done | |].
    + rewrite <- (error_of_static w url self
                    (visited_add (normalize_url url) (set_queue q (self_of ck))))
        by done.
      unfold error_of. now rewrite Htry.
    + now rewrite omap_app, app_assoc.
Qed.

Lemma output_in_processing_order_witness :
  (exists f, crawl (Demo.world Demo.dup_site) 10 Demo.seed = Some (Ok f)
             /\ written f
                = join_lines (omap (block_of (Demo.world Demo.dup_site))
                                (described (final f))))
  /\ (exists e', crawl (Markup.world Markup.site) 10 Demo.seed
                 = Some (Raise e')).
Proof.
  split.
  - destruct (crawl (Demo.world Demo.dup_site) 10 Demo.seed) as [[f|e]|] eqn:Hc;
      [| vm_compute in Hc; discriminate ..].
    exists f. split; [reflexivity |].
    destruct (output_in_processing_order (Demo.world Demo.dup_site)
                Demo.seed 0) as (_ & _ & _ & _ & H & _).
    exact (proj1 (H 10 f Hc)).
  - destruct (output_in_processing_order (Markup.world Markup.site)
                Demo.seed 0) as (_ & _ & _ & _ & _ & H).
    destruct (H 10
                "closing tag '[/y]' at position 46 doesn't match any open tag"
                (attempt (Markup.world Markup.site) Markup.X
                   {| self_of := visited_add (normalize_url Markup.X)
                                   (set_queue [Demo.A]
                                      (self_of (run (Markup.world Markup.site) 1
                                                  (start Demo.seed))));
                      described := [Demo.S; Markup.X];
                      printed := [] |}))
      as (He & _).
    + vm_compute. reflexivity.
    + exact He.
Defined.

(** ** The end of the loop *)

Section Termination.
Context (w : World) (self : Scraper) (K : gset string).
Hypothesis Hsite : site_within w self K.

Lemma iteration_within (c c' : Crawl) :
  frontier_within self K c -> iteration w c = Some c' ->
  frontier_within self K c'
  /\ length (described c') = S (length (described c)).
Proof.
  intros (Hok & Hb & Hs & HK) Hit.
  destruct (iteration_ok w c c' Hok Hit)
    as (url & q & new & Hq & Hd & Hq' & Hadd & Hok').
  destruct (run_static w 1 c) as (Hb1 & Hs1). simpl in Hb1, Hs1.
  rewrite Hit in Hb1, Hs1.
  split; [| rewrite Hd, length_app; simpl; lia].
  split_and!; [done | congruence | congruence |].
  destruct Hadd as (_ & Hs' & _ & Hall & picked & Hsub & Hf2).
  rewrite Hs'. simpl. intros k [Hk|Hk]%elem_of_union; [| now apply HK].
  apply elem_of_list_to_set, list_elem_of_fmap in Hk as (u & -> & Hu).
  destruct (joined_from_picked w url picked new u Hf2 Hu) as (h & Hh & Hj).
  apply (Hsite url h u); [exact (sublist_subseteq _ _ Hsub h Hh) | done |].
  destruct (Hall u Hu) as (_ & _ & Hv). rewrite <- Hv.
  symmetry. now apply is_valid_url_static.
Qed.

Lemma frontier_within_length (c : Crawl) :
  frontier_within self K c -> length (frontier_order c) <= size K.
Proof.
  intros ((Hnd & Hseen & _) & _ & _ & HK).
  rewrite <- (length_map normalize_url).
  rewrite <- (size_list_to_set (C := gset string)) by exact Hnd.
  apply subseteq_size. intros k Hk.
  apply elem_of_list_to_set, list_elem_of_fmap in Hk as (u & -> & Hu).
  apply HK. now apply Hseen.
Qed.

Lemma while_loop_within (fuel : nat) (c : Crawl) :
  frontier_within self K c ->
  size K - length (described c) < fuel ->
  exists l,
    while_loop w fuel c = Some l
    /\ match l with
       | Ended c' => frontier_within self K c' /\ queue (self_of c') = []
       | Escaped _ c' => length (described c') <= size K
       end.
Proof.
  revert c. induction fuel as [|fuel IH]; intros c Hin Hfuel; [lia |].
  cbn [while_loop].
  pose proof (frontier_within_length c Hin) as Hle.
  unfold frontier_order in Hle. rewrite length_app in Hle.
  destruct (turn_of w c) as [|c1|e c1] eqn:Ht.
  - exists (Ended c). split; [reflexivity |]. split; [exact Hin |].
    now apply turn_ends in Ht.
  - assert (Hit : iteration w c = Some c1) by (unfold iteration; now rewrite Ht).
    destruct (iteration_within c c1 Hin Hit) as (Hin1 & Hlen).
    apply (IH c1 Hin1).
    assert (Hq : queue (self_of c) <> []).
    { intros Hq. apply (turn_ends w) in Hq. congruence. }
    destruct (queue (self_of c)); [done |]. simpl in Hle. lia.
  - exists (Escaped e c1). split; [reflexivity |].
    destruct (turn_escapes w c c1 e Ht) as (url & q & Hq & _ & -> & _).
    rewrite attempt_described. cbn [described].
    rewrite Hq in Hle. rewrite length_app. simpl in *. lia.
Qed.

End Termination.

(** X13: when every link of the site that the filter accepts has its key
    in a finite set [K] that holds the key of the seed, the loop of a run
    that began with the constructor is left within [size K + 1] turns, at
    its head with an empty queue or from the handler with an exception, and
    at most [size K] pages were taken for processing.  So [crawl] returns
    or raises: the loop does not run on.  When [crawl] returns, the queue
    is empty.  When the launch, the console, the leaving of the two [with]
    blocks, the closing of the browser and the writing raise nothing,
    [crawl] returns. *)
Theorem crawl_ends_on_finite_site (w : World) (seed_url out : string)
    (self : Scraper) (K : gset string) :
  init w seed_url out = Ok self ->
  site_within w self K ->
  normalize_url seed_url ∈ K ->
  (exists l,
     while_loop w (S (size K)) (start self) = Some l
     /\ match l with
        | Ended c => queue (self_of c) = [] /\ length (described c) <= size K
        | Escaped _ c => length (described c) <= size K
        end)
  /\ (exists r, crawl w (S (size K)) self = Some r)
  /\ (forall f, crawl w (S (size K)) self = Some (Ok f) ->
        queue (self_of (final f)) = []
        /\ length (described (final f)) <= size K)
  /\ (launch w = Ok tt ->
      (forall line, console_print w line = Ok tt) ->
      (forall urls, progress_exit w urls = Ok tt) ->
      browser_close w = Ok tt ->
      playwright_exit w = Ok tt ->
      (forall file text, write_output w file text = Ok tt) ->
      exists f, crawl w (S (size K)) self = Some (Ok f)).
Proof.
  intros Hinit Hsite Hseed.
  destruct (init_frontier_ok w seed_url out self Hinit) as (_ & Hok & _).
  destruct (init_fields w _ _ _ Hinit) as (_ & _ & _ & Hs & _).
  assert (Hin : frontier_within self K (start self)).
  { split_and!; [done | done | done |]. simpl. rewrite Hs. set_solver. }
  destruct (while_loop_within w self K Hsite (S (size K)) (start self) Hin)
    as (l & Hl & Hend); [simpl; lia |].
  assert (Hended : forall c, l = Ended c ->
            queue (self_of c) = [] /\ length (described c) <= size K).
  { intros c ->. destruct Hend as (Hinc & Hq). split; [exact Hq |].
    pose proof (frontier_within_length self K c Hinc) as Hle.
    unfold frontier_order in Hle. rewrite length_app in Hle. lia. }
  split_and!.
  - exists l. split; [exact Hl |]. destruct l as [c|e c]; [| exact Hend].
    now apply Hended.
  - unfold crawl. destruct (launch w); [| now eexists].
    rewrite Hl. destruct l; now eexists.
  - intros f Hc. destruct (crawl_ok w _ _ f Hc) as (c & Hl' & Hf).
    destruct (finish_ok w c f Hf) as (-> & _). cbn [self_of described].
    apply Hended. congruence.
  - intros Hlaunch Hprint Hprogress Hclose Hexit Hwrite.
    unfold crawl. rewrite Hlaunch, Hl.
    destruct l as [c|e c].
    + unfold finish. rewrite Hprogress, Hclose, Hexit. cbn [bind].
      rewrite Hwrite. cbn [bind]. rewrite !Hprint. cbn [bind]. now eexists.
    + exfalso.
      destruct (while_loop_escaped w _ _ _ e Hl) as (k & _ & Hturn).
      destruct (turn_escapes w _ _ e Hturn) as (url & q & _ & _ & _ & Hesc).
      rewrite (escapes_quiet w url _ Hprint) in Hesc. discriminate.
Qed.

Lemma bfs_site_links (p h : string) :
  h ∈ page_hrefs (Demo.world Demo.bfs_site) p -> h ∈ [Demo.A; Demo.B; Demo.C].
Proof.
  unfold page_hrefs, load, Demo.world.
  cbn [page_content BeautifulSoup bind Demo.lookup_page Demo.bfs_site].
  destruct (String.eqb_spec Demo.S p) as [<-|_].
  { vm_compute. intros H. inversion H as [|? ? ? H1]; subst; [left |].
    inversion H1; subst; [right; left |]. inversion H3. }
  destruct (String.eqb_spec Demo.A p) as [<-|_].
  { vm_compute. intros H. inversion H as [|? ? ? H1]; subst;
      [right; right; left |]. inversion H1. }
  destruct (String.eqb_spec Demo.B p) as [<-|_].
  { vm_compute. inversion 1. }
  destruct (String.eqb_spec Demo.C p) as [<-|_].
  { vm_compute. inversion 1. }
  inversion 1.
Qed.

Lemma crawl_ends_on_finite_site_witness :
  let K : gset string := list_to_set [Demo.S; Demo.A; Demo.B; Demo.C] in
  exists f,
    crawl (Demo.world Demo.bfs_site) (S (size K)) Demo.seed = Some (Ok f).
Proof.
  intros K.
  assert (H : site_within (Demo.world Demo.bfs_site) Demo.seed K
              /\ normalize_url Demo.S ∈ K).
  { split.
    - intros p h u Hh Hj _. apply bfs_site_links in Hh.
      repeat (apply elem_of_cons in Hh as [->|Hh];
              [vm_compute in Hj; injection Hj as <-;
               apply (bool_decide_unpack _); vm_compute; exact I |]).
      inversion Hh.
    - apply (bool_decide_unpack _). vm_compute. exact I. }
  destruct (crawl_ends_on_finite_site (Demo.world Demo.bfs_site) Demo.S
              "docs.md" Demo.seed K eq_refl (proj1 H) (proj2 H))
    as (_ & _ & _ & Hret).
  apply Hret; reflexivity.
Defined.

(** ** What a finished run has covered *)

Section Closure.
Context (w : World) (self : Scraper).

Lemma find_links_covers (url : string) (hrefs : list string) (s : Scraper) :
  base_domain s = base_domain self -> start_url s = start_url self ->
  (forall h, h ∈ hrefs ->
     exists u b, urljoin w url h = Ok u /\ is_valid_url w self u = Ok b) ->
  let s' := (find_links w url hrefs s).1 in
  seen_urls s ⊆ seen_urls s'
  /\ (find_links w url hrefs s).2 = Ok tt
  /\ forall h u, h ∈ hrefs -> urljoin w url h = Ok u ->
       is_valid_url w self u = Ok true ->
       normalize_url u ∈ seen_urls s' \/ normalize_url u ∈ visited s.
Proof.
  revert s. induction hrefs as [|h0 rest IH]; intros s Hb Hs Hread.
  - simpl. split_and!; [done | done |]. intros h u Hh. inversion Hh.
  - destruct (Hread h0) as (full & valid & Hj & Hv); [left |].
    assert (Hv' : is_valid_url w s full = Ok valid).
    { rewrite <- Hv. now apply is_valid_url_static. }
    assert (Hrest : forall h, h ∈ rest ->
              exists u b, urljoin w url h = Ok u
                          /\ is_valid_url w self u = Ok b).
    { intros h Hh. apply Hread. now right. }
    cbn [find_links]. rewrite Hj, Hv'.
    destruct (valid && bool_decide (normalize_url full ∉ visited s)
              && bool_decide (normalize_url full ∉ seen_urls s)) eqn:Ec.
    + destruct (IH (push (normalize_url full) full s) Hb Hs Hrest)
        as (Hsub & Hok & Hcov).
      simpl in Hsub. split_and!; [set_solver | exact Hok |].
      intros h u [->|Hh]%elem_of_cons Hju Hvu.
      * left. rewrite Hj in Hju. injection Hju as <-. set_solver.
      * exact (Hcov h u Hh Hju Hvu).
    + destruct (IH s Hb Hs Hrest) as (Hsub & Hok & Hcov).
      split_and!; [done | exact Hok |].
      intros h u [->|Hh]%elem_of_cons Hju Hvu.
      * rewrite Hj in Hju. injection Hju as <-.
        rewrite Hv in Hvu. injection Hvu as ->.
        rewrite andb_true_l in Ec.
        apply andb_false_iff in Ec as [Ec|Ec];
          apply bool_decide_eq_false in Ec.
        -- right. destruct (decide (normalize_url full ∈ visited s)); done.
        -- left. apply Hsub.
           destruct (decide (normalize_url full ∈ seen_urls s)); done.
      * exact (Hcov h u Hh Hju Hvu).
Qed.

Lemma iteration_covered (c c' : Crawl) :
  frontier_ok c ->
  base_domain (self_of c) = base_domain self ->
  start_url (self_of c) = start_url self ->
  links_covered w self c -> iteration w c = Some c' ->
  links_covered w self c'.
Proof.
  intros Hok Hb Hs Hcov Hit.
  destruct (iteration_ok w c c' Hok Hit)
    as (url & q & new & Hq & Hd & Hq' & Hadd & _).
  destruct Hadd as (_ & Hseen' & _). simpl in Hseen'.
  destruct Hok as (_ & Hinseen & Hvis).
  assert (Hc' : c' = attempt w url
                  {| self_of := visited_add (normalize_url url)
                                  (set_queue q (self_of c));
                     described := described c ++ [url];
                     printed := printed c |}).
  { destruct (iteration_cases w c) as [[_ H] | [(u' & q' & Hq1 & _ & H) |
                                               (u' & q' & Hq1 & _ & H)]];
      rewrite H in Hit.
    - discriminate.
    - injection Hit as <-. simpl in Hd.
      apply (f_equal length) in Hd. rewrite length_app in Hd. simpl in Hd. lia.
    - rewrite Hq in Hq1. injection Hq1 as <- <-. now injection Hit as <-. }
  intros p Hp Hread h u Hh Hj Hv.
  rewrite Hd in Hp. apply elem_of_app in Hp as [Hp|Hp].
  { rewrite Hseen'. apply elem_of_union_r. exact (Hcov p Hp Hread h u Hh Hj Hv). }
  apply list_elem_of_singleton in Hp as ->.
  rewrite Hc', attempt_self. cbn [self_of].
  set (s1 := visited_add (normalize_url url) (set_queue q (self_of c))).
  unfold page_hrefs in Hh, Hread. unfold links_readable, page_hrefs in Hread.
  unfold try_body.
  destruct (load w url) as [[block soup]|e]; [| inversion Hh].
  set (s2 := match block with
             | Some b => markdown_append b s1
             | None => s1
             end).
  assert (Hb2 : base_domain s2 = base_domain self) by (now destruct block).
  assert (Hs2 : start_url s2 = start_url self) by (now destruct block).
  destruct (find_links_covers url (Soup.find_all_a_href soup) s2 Hb2 Hs2 Hread)
    as (Hsub & _ & Hin).
  destruct (Hin h u Hh Hj Hv) as [Hu|Hu]; [exact Hu |].
  apply Hsub.
  assert (Hu' : normalize_url u ∈ visited s1) by (now destruct block).
  assert (Hseen2 : seen_urls s2 = seen_urls (self_of c)) by (now destruct block).
  rewrite Hseen2. simpl in Hu'.
  apply elem_of_union in Hu' as [->%elem_of_singleton|Hu'].
  - apply Hinseen. unfold frontier_order. rewrite Hq.
    apply elem_of_app. right. left.
  - specialize (Hvis _ Hu'). apply list_elem_of_fmap in Hvis as (x & -> & Hx).
    apply Hinseen. apply elem_of_app. now left.
Qed.

Lemma run_covered (seed_url out : string) (n : nat) :
  init w seed_url out = Ok self ->
  links_covered w self (run w n (start self)).
Proof.
  intros Hinit.
  destruct (init_frontier_ok w seed_url out self Hinit) as (_ & Hok & _).
  assert (H0 : links_covered w self (start self)).
  { intros p Hp. inversion Hp. }
  assert (Hb : base_domain (self_of (start self)) = base_domain self) by done.
  assert (Hs : start_url (self_of (start self)) = start_url self) by done.
  revert Hok H0 Hb Hs. generalize (start self) as c.
  induction n as [|n IH]; intros c Hok H0 Hb Hs; simpl; [exact H0 |].
  destruct (iteration w c) as [c'|] eqn:Hit; [| exact H0].
  destruct (iteration_ok w c c' Hok Hit) as (_ & _ & _ & _ & _ & _ & _ & Hok').
  destruct (run_static w 1 c) as (Hb1 & Hs1). simpl in Hb1, Hs1.
  rewrite Hit in Hb1, Hs1.
  apply (IH c' Hok'); [| congruence | congruence].
  now apply (iteration_covered c c').
Qed.

End Closure.

(** X14: when the loop of a run that began with the constructor has ended,
    the queue is empty, everything seen was visited, and for every
    processed page whose references all join and parse, every link of the
    page that the filter accepts has its key among the visited: nothing
    found and accepted was left out. *)
Theorem finished_run_is_closed (w : World) (seed_url out : string)
    (self : Scraper) (fuel : nat) (c : Crawl) :
  init w seed_url out = Ok self ->
  crawl_loop w fuel (start self) = Some c ->
  queue (self_of c) = []
  /\ seen_urls (self_of c) = visited (self_of c)
  /\ (forall p, p ∈ described c -> links_readable w self p ->
        forall h u, h ∈ page_hrefs w p -> urljoin w p h = Ok u ->
          is_valid_url w self u = Ok true ->
          normalize_url u ∈ visited (self_of c)).
Proof.
  intros Hinit Hc.
  destruct (crawl_loop_run w fuel _ _ Hc) as (-> & Hnone).
  pose proof (run_seen_exact w seed_url out self fuel Hinit) as Hse.
  pose proof (run_visited_exact w seed_url out self fuel Hinit) as (Hve & _).
  unfold frontier_order in Hse. rewrite Hnone, app_nil_r in Hse.
  assert (Heq : seen_urls (self_of (run w fuel (start self)))
                = visited (self_of (run w fuel (start self))))
    by congruence.
  split_and!; [done | done |].
  intros p Hp Hread h u Hh Hj Hv. rewrite <- Heq.
  exact (run_covered w self seed_url out fuel Hinit p Hp Hread h u Hh Hj Hv).
Qed.

Lemma finished_run_is_closed_witness :
  normalize_url Demo.B
    ∈ visited (self_of (run (Demo.world Demo.bfs_site) 5 (start Demo.seed))).
Proof.
  destruct (finished_run_is_closed (Demo.world Demo.bfs_site) Demo.S "docs.md"
              Demo.seed 5 (run (Demo.world Demo.bfs_site) 5 (start Demo.seed))
              eq_refl) as (_ & _ & H).
  { vm_compute. reflexivity. }
  apply (H Demo.S) with (h := Demo.B).
  - apply (bool_decide_unpack _). vm_compute. exact I.
  - intros h Hh. apply bfs_site_links in Hh.
    repeat (apply elem_of_cons in Hh as [->|Hh];
            [eexists _, _; split; reflexivity |]).
    inversion Hh.
  - apply (bool_decide_unpack _). vm_compute. exact I.
  - reflexivity.
  - reflexivity.
Defined.

(** ** The constructor and [main] *)




(** ** Nothing is taken back *)

Section Growth.
Context (w : World).

Lemma attempt_seen (url : string) (c : Crawl) :
  seen_urls (self_of c) ⊆ seen_urls (self_of (attempt w url c)).
Proof.
  rewrite attempt_self.
  destruct (try_body_added w url (self_of c)) as (new & _ & -> & _).
  set_solver.
Qed.

Lemma run_seen_grows (n : nat) (c : Crawl) :
  seen_urls (self_of c) ⊆ seen_urls (self_of (run w n c)).
Proof.
  revert c. induction n as [|n IH]; intros c; simpl; [done |].
  destruct (iteration_cases w c) as [[_ ->] | [(url & q & _ & _ & ->) |
                                              (url & q & _ & _ & ->)]].
  - done.
  - exact (IH {| self_of := set_queue q (self_of c);
                 described := described c; printed := printed c |}).
  - etrans; [| apply IH]. etrans; [| apply attempt_seen]. done.
Qed.

End Growth.

(** X16: a run never takes anything back.  From any state, after any
    number of turns, [visited] and [seen_urls] hold what they held, the
    blocks, the URLs processed and the lines printed begin with what was
    there, and the seed and the host of the scraper are what they were. *)
Theorem run_only_grows (w : World) (c : Crawl) (n : nat) :
  visited (self_of c) ⊆ visited (self_of (run w n c))
  /\ seen_urls (self_of c) ⊆ seen_urls (self_of (run w n c))
  /\ described c `prefix_of` described (run w n c)
  /\ markdown_content (self_of c)
       `prefix_of` markdown_content (self_of (run w n c))
  /\ printed c `prefix_of` printed (run w n c)
  /\ start_url (self_of (run w n c)) = start_url (self_of c)
  /\ base_domain (self_of (run w n c)) = base_domain (self_of c).
Proof.
  destruct (run_described w n c) as (later & Hd & _ & _ & Hv).
  destruct (run_output w n c) as (later' & Hd' & Hm & Hp).
  destruct (run_static w n c) as (Hb & Hs).
  split_and!.
  - rewrite Hv. set_solver.
  - apply run_seen_grows.
  - rewrite Hd. now eexists.
  - rewrite Hm. now eexists.
  - rewrite Hp. now eexists.
  - exact Hs.
  - exact Hb.
Qed.

Example flaky_page_keeps_block_and_first_link :
  let c := run (Flaky.world Flaky.site Flaky.bad false) 10 (start Demo.seed) in
  described c = [Demo.S; Demo.A]
  /\ length (markdown_content (self_of c)) = 2
  /\ printed c = [error_line Demo.S "Invalid IPv6 URL"].
Proof. vm_compute. split_and!; reflexivity. Qed.

Lemma normalize_url_fixed_points_witness :
  normalize_url "https://docs.example.com/a" = "https://docs.example.com/a".
Proof.
  apply (normalize_url_fixed_points "https://docs.example.com/a").
  split; reflexivity.
Defined.
